(** * dfe_prng: SplitMix64 and xoshiro256** over 64-bit words

    A shallow embedding of [dfe/dfe_prng.hpp] and of the byte-dump program
    [examples/example_prng_dieharder.cpp].  A [uint64_t] is a [Z] in
    [0, 2^64); every operation that can leave that range in C++ (addition,
    multiplication, left shift) is followed by an explicit reduction
    modulo [2^64]. *)

From Stdlib Require Import ZArith Lia List Bool String Ascii DecimalString.
Import ListNotations.

Local Open Scope Z_scope.

(** ** 64-bit unsigned words *)

Module U64.

Definition modulus : Z := 2 ^ 64.

(** [UINT64_MAX] of <cstdint>. *)
Definition UINT64_MAX : Z := 18446744073709551615.

Definition in_range (x : Z) : Prop := 0 <= x < modulus.

(** Conversion of a mathematical integer to [uint64_t]. *)
Definition wrap (x : Z) : Z := x mod modulus.

(** [a + b], [a * b], [a << k] on [uint64_t]. *)
Definition add (a b : Z) : Z := wrap (a + b).
Definition mul (a b : Z) : Z := wrap (a * b).
Definition shl (a k : Z) : Z := wrap (Z.shiftl a k).

(** [a >> k], [a ^ b], [a | b] on [uint64_t]: no reduction is needed. *)
Definition shr (a k : Z) : Z := Z.shiftr a k.
Definition xor (a b : Z) : Z := Z.lxor a b.
Definition or (a b : Z) : Z := Z.lor a b.

End U64.

Import U64.

(** ** SplitMix64 *)

Module SplitMix64.

(** The only data member is [uint64_t m_state]. *)
Record t : Type := mk { m_state : Z }.

Definition construct (seed : Z) : t := mk seed.

(** [operator()]: the result is the output paired with the generator
    after the call. *)
Definition next (g : t) : Z * t :=
  let st := add (m_state g) 0x9e3779b97f4a7c15 in
  let z := st in
  let z := mul (xor z (shr z 30)) 0xbf58476d1ce4e5b9 in
  let z := mul (xor z (shr z 27)) 0x94d049bb133111eb in
  (xor z (shr z 31), mk st).

Definition min : Z := 0.
Definition max : Z := UINT64_MAX.

(** Not in the source: the type invariant of [uint64_t m_state], used in
    the statements below. *)
Definition valid (g : t) : Prop := in_range (m_state g).

End SplitMix64.

(** ** xoshiro256** *)

Module Xoshiro256StarStar.

(** [uint64_t m_state[4]], one field per array slot. *)
Record t : Type := mk { m_state0 : Z; m_state1 : Z; m_state2 : Z; m_state3 : Z }.

(** [(x << k) | (x >> (64 - k))].  The C++ expression is defined for
    [0 < k < 64] only; the generator calls it with 7 and 45. *)
Definition rotate_left (x k : Z) : Z := or (shl x k) (shr x (64 - k)).

Definition construct (seed : Z) : t :=
  let seq := SplitMix64.construct seed in
  let '(a, seq) := SplitMix64.next seq in
  let '(b, seq) := SplitMix64.next seq in
  let '(c, seq) := SplitMix64.next seq in
  let '(d, _) := SplitMix64.next seq in
  mk a b c d.

Definition next (g : t) : Z * t :=
  let '(mk s0 s1 s2 s3) := g in
  let z := mul (rotate_left (mul s1 5) 7) 9 in
  let t := shl s1 17 in
  let s2 := xor s2 s0 in
  let s3 := xor s3 s1 in
  let s1 := xor s1 s2 in
  let s0 := xor s0 s3 in
  let s2 := xor s2 t in
  let s3 := rotate_left s3 45 in
  (z, mk s0 s1 s2 s3).

Definition min : Z := 0.
Definition max : Z := UINT64_MAX.

(** The rest of this module is not in the source; the statements and
    proofs below use it.  First the type invariant of
    [uint64_t m_state[4]] and the all-zero state. *)
Definition valid (g : t) : Prop :=
  in_range (m_state0 g) /\ in_range (m_state1 g) /\
  in_range (m_state2 g) /\ in_range (m_state3 g).

Definition zero : t := mk 0 0 0 0.

(** The state after one call, without the output. *)
Definition step (g : t) : t := snd (next g).

(** Undoes [x ^ (x << 17)] on 64 bits: the shift is nilpotent, four
    terms of the geometric series are enough. *)
Definition unshift17 (v : Z) : Z :=
  let x := v in
  let x := xor v (shl x 17) in
  let x := xor v (shl x 17) in
  xor v (shl x 17).

(** The state before a call, recomputed from the state after it. *)
Definition prev (g : t) : t :=
  let '(mk a b c d) := g in
  let u := rotate_left d 19 in
  let s0 := xor a u in
  let s1 := unshift17 (xor b c) in
  let s2 := xor (xor b s1) s0 in
  let s3 := xor u s1 in
  mk s0 s1 s2 s3.

End Xoshiro256StarStar.

(** ** The common shape of the two generators *)

Class Generator (G : Type) : Type := {
  gen_construct : Z -> G;
  gen_next : G -> Z * G;
  gen_min : Z;
  gen_max : Z
}.

#[global] Instance SplitMix64_Generator : Generator SplitMix64.t := {
  gen_construct := SplitMix64.construct;
  gen_next := SplitMix64.next;
  gen_min := SplitMix64.min;
  gen_max := SplitMix64.max
}.

#[global] Instance Xoshiro256StarStar_Generator : Generator Xoshiro256StarStar.t := {
  gen_construct := Xoshiro256StarStar.construct;
  gen_next := Xoshiro256StarStar.next;
  gen_min := Xoshiro256StarStar.min;
  gen_max := Xoshiro256StarStar.max
}.

Section Runs.

Context {G : Type} `{Generator G}.

(** Not in the source: callers of the generators, for the statements
    below.  [n] successive calls: the outputs in order and the generator
    left behind. *)
Fixpoint generate (n : nat) (g : G) : list Z * G :=
  match n with
  | O => ([], g)
  | S n' =>
      let '(x, g1) := gen_next g in
      let '(xs, g2) := generate n' g1 in
      (x :: xs, g2)
  end.

(** Two generator objects of one program, called in any interleaving. *)
Inductive which : Type := First | Second.

Definition is_first (w : which) : bool :=
  match w with First => true | Second => false end.

Definition calls (w : which) (sched : list which) : nat :=
  List.length (filter (fun v => Bool.eqb (is_first v) (is_first w)) sched).

Fixpoint interleave (sched : list which) (g1 g2 : G)
  : (list Z * G) * (list Z * G) :=
  match sched with
  | [] => (([], g1), ([], g2))
  | First :: rest =>
      let '(x, g1') := gen_next g1 in
      let '((xs, h1), r2) := interleave rest g1' g2 in
      ((x :: xs, h1), r2)
  | Second :: rest =>
      let '(x, g2') := gen_next g2 in
      let '(r1, (ys, h2)) := interleave rest g1 g2' in
      (r1, (x :: ys, h2))
  end.

End Runs.

(** ** The byte-dump program *)

Module Dieharder.

Definition block_size : Z := 1024.

(** [sizeof(uint64_t)]. *)
Definition sizeof_uint64_t : Z := 8.

(** [EXIT_SUCCESS] and [EXIT_FAILURE] of <cstdlib>. *)
Definition EXIT_SUCCESS : Z := 0.
Definition EXIT_FAILURE : Z := 1.

Definition nl : string := String (ascii_of_nat 10) EmptyString.

(** The [PRIu64] conversion of [fprintf]. *)
Definition show_u64 (x : Z) : string :=
  NilZero.string_of_uint (N.to_uint (Z.to_N x)).

Section Writer.

Context {G : Type} `{Generator G}.

(** The [while (written < bytes)] loop.  Standard output is the list of
    64-bit values written so far, each one standing for
    [sizeof(uint64_t)] bytes.  The loop has no bound of its own, hence
    the fuel: [None] means that [fuel] iterations did not reach the
    exit. *)
Fixpoint write_loop (fuel : nat) (bytes : Z) (rng : G) (written : Z)
    (out : list Z) : option (Z * list Z) :=
  if written <? bytes then
    match fuel with
    | O => None
    | S fuel' =>
        let '(data, rng') := generate (Z.to_nat block_size) rng in
        let out' := out ++ data in
        let written' := add written (sizeof_uint64_t * block_size) in
        write_loop fuel' bytes rng' written' out'
    end
  else Some (written, out).

Definition write_random_bytes_to_stdout (fuel : nat) (seed bytes : Z)
    : option (list Z) :=
  let rng := gen_construct seed in
  option_map snd (write_loop fuel bytes rng 0 []).

End Writer.

(** Bytes on standard output. *)
Definition bytes_of (out : list Z) : Z :=
  sizeof_uint64_t * Z.of_nat (List.length out).

Record RngRegistryEntry : Type := mkEntry {
  name : string;
  func : nat -> Z -> Z -> option (list Z)
}.

Definition registry : list RngRegistryEntry := [
  mkEntry "splitmix64" (write_random_bytes_to_stdout (G := SplitMix64.t));
  mkEntry "xoshiro256**" (write_random_bytes_to_stdout (G := Xoshiro256StarStar.t))
].

(** What a run of [main] leaves behind: the exit status, the [fprintf]
    calls on standard error in order, and standard output. *)
Record outcome : Type := mkOutcome {
  exit_status : Z;
  stderr : list string;
  stdout : list Z
}.

(** The first entry whose name equals [rng], as the [for] loop with its
    early [return] finds it. *)
Fixpoint select (entries : list RngRegistryEntry) (rng : string)
    : option RngRegistryEntry :=
  match entries with
  | [] => None
  | entry :: rest =>
      if String.eqb (name entry) rng then Some entry else select rest rng
  end.

Section Main.

(** [strtoull(s, nullptr, 0)] of the C library. *)
Variable strtoull : string -> Z.

Definition usage (argv0 : string) : list string :=
  [ ("usage:" ++ nl)%string;
    ("  " ++ argv0 ++ " name mebibytes [seed]" ++ nl)%string;
    nl;
    ("available rngs:" ++ nl)%string ]
  ++ map (fun entry => ("  " ++ name entry ++ nl)%string) registry.

Definition main (fuel : nat) (argv : list string) : option outcome :=
  let argc := Z.of_nat (List.length argv) in
  if (argc <? 3) || (4 <? argc) then
    Some (mkOutcome EXIT_FAILURE (usage (nth 0 argv EmptyString)) [])
  else
    let rng := nth 1 argv EmptyString in
    let seed := 1234567890 in
    let bytes := mul (1024 * 1024) (wrap (strtoull (nth 2 argv EmptyString))) in
    let seed :=
      if argc =? 4 then wrap (strtoull (nth 3 argv EmptyString)) else seed in
    match select registry rng with
    | Some entry =>
        let log :=
          [ ("rng: " ++ rng ++ nl)%string;
            ("seed: " ++ show_u64 seed ++ nl)%string;
            ("bytes: " ++ show_u64 bytes ++ nl)%string ] in
        match func entry fuel seed bytes with
        | Some out => Some (mkOutcome EXIT_SUCCESS log out)
        | None => None
        end
    | None =>
        Some (mkOutcome EXIT_SUCCESS
                [("unknown rng '" ++ rng ++ "'" ++ nl)%string] [])
    end.

End Main.

End Dieharder.

(** ** Further definitions

    Positions in an output sequence, the unit test [sequence_neighbors],
    and the inverse maps used to state that the output functions are
    one-to-one. *)

Section Positions.

Context {G : Type} `{Generator G}.

(** Not in the source: the value returned by call number [n + 1]. *)
Definition output_at (n : nat) (g : G) : Z :=
  fst (gen_next (snd (generate n g))).

(** The [for] loop of the test case [sequence_neighbors] in
    [unittests/test_prng.cpp]: [n] further calls, each compared with the
    one before.  [BOOST_CHECK] records a failure and goes on; the result
    says whether every check passed. *)
Fixpoint neighbors_loop (n : nat) (rng : G) (prev : Z) : bool :=
  match n with
  | O => true
  | S n' =>
      let '(curr, rng') := gen_next rng in
      negb (curr =? prev) && neighbors_loop n' rng' curr
  end.

(** The body of the test case, for any seed and any number of rounds. *)
Definition sequence_neighbors_from (seed : Z) (rounds : nat) : bool :=
  let rng := gen_construct seed in
  let '(prev, rng) := gen_next rng in
  neighbors_loop rounds rng prev.

End Positions.

(** [num_tests = (1 << 15)] and the test case as it is written there. *)
Definition num_tests : Z := Z.shiftl 1 15.

Definition sequence_neighbors (G : Type) `{Generator G} : bool :=
  sequence_neighbors_from (G := G) 123 (Z.to_nat num_tests).

(** Not in the source: the increment of SplitMix64, the three rounds
    applied to the incremented state, and their inverses. *)
Definition splitmix64_gamma : Z := 0x9e3779b97f4a7c15.

Definition splitmix64_mix (z : Z) : Z :=
  let z := mul (xor z (shr z 30)) 0xbf58476d1ce4e5b9 in
  let z := mul (xor z (shr z 27)) 0x94d049bb133111eb in
  xor z (shr z 31).

(** Undoes [z ^ (z >> k)] on 64 bits when [3 * k >= 64]. *)
Definition unxorshift (y k : Z) : Z :=
  let x := xor y (shr y k) in
  xor y (shr x k).

Definition splitmix64_unmix (y : Z) : Z :=
  let z := unxorshift y 31 in
  let z := unxorshift (mul z 0x319642b2d24d8ec3) 27 in
  unxorshift (mul z 0x96de1b173f119089) 30.

(** Not in the source: the output of xoshiro256** as a function of word 1,
    its inverse, and the word-wise exclusive or of two states. *)
Definition xoshiro_scramble (s1 : Z) : Z :=
  mul (Xoshiro256StarStar.rotate_left (mul s1 5) 7) 9.

Definition xoshiro_unscramble (z : Z) : Z :=
  mul (Xoshiro256StarStar.rotate_left (mul z 0x8e38e38e38e38e39) 57)
      0xcccccccccccccccd.

Definition xor_state (g h : Xoshiro256StarStar.t) : Xoshiro256StarStar.t :=
  Xoshiro256StarStar.mk
    (xor (Xoshiro256StarStar.m_state0 g) (Xoshiro256StarStar.m_state0 h))
    (xor (Xoshiro256StarStar.m_state1 g) (Xoshiro256StarStar.m_state1 h))
    (xor (Xoshiro256StarStar.m_state2 g) (Xoshiro256StarStar.m_state2 h))
    (xor (Xoshiro256StarStar.m_state3 g) (Xoshiro256StarStar.m_state3 h)).

(** ** Proof automation for bit-level goals *)

Ltac ltb_true :=
  repeat match goal with
    | |- context [?a <? 64] =>
        replace (a <? 64) with true by (symmetry; apply Z.ltb_lt; lia)
    end.

Ltac split_bits x :=
  repeat match goal with
    | |- context [Z.testbit x ?j] => destruct (Z.testbit x j)
    end.

(** Equations between exclusive ors of the same words, in any order. *)
Ltac xor_bits :=
  apply Z.bits_inj'; intros ?i _; unfold xor; rewrite !Z.lxor_spec;
  repeat match goal with
    | |- context [Z.testbit ?x ?j] => destruct (Z.testbit x j)
    end;
  reflexivity.

(** * Properties *)

(** ** Words: ranges and bits *)

Lemma modulus_eq : modulus = 18446744073709551616.
Proof. reflexivity. Qed.

Lemma wrap_in_range (x : Z) : in_range (wrap x).
Proof. unfold in_range, wrap. apply Z.mod_pos_bound. reflexivity. Qed.

Lemma wrap_small (x : Z) : in_range x -> wrap x = x.
Proof. intros Hx. apply Z.mod_small. exact Hx. Qed.

Lemma testbit_wrap (a i : Z) :
  Z.testbit (wrap a) i = (i <? 64) && Z.testbit a i.
Proof. unfold wrap, modulus. apply Z.testbit_mod_pow2. lia. Qed.

Lemma testbit_shl (a k i : Z) :
  0 <= k -> Z.testbit (shl a k) i = (i <? 64) && Z.testbit a (i - k).
Proof.
  intros Hk. unfold shl. rewrite testbit_wrap.
  destruct (Z.ltb_spec i 0) as [Hneg | Hpos].
  - rewrite !Z.testbit_neg_r by lia. reflexivity.
  - rewrite Z.shiftl_spec by lia. reflexivity.
Qed.

Lemma testbit_shr (a k i : Z) :
  0 <= i -> Z.testbit (shr a k) i = Z.testbit a (i + k).
Proof. intros Hi. unfold shr. apply Z.shiftr_spec. exact Hi. Qed.

Lemma testbit_high (x i : Z) : in_range x -> 64 <= i -> Z.testbit x i = false.
Proof.
  intros Hx Hi. rewrite <- (wrap_small x Hx), testbit_wrap.
  destruct (Z.ltb_spec i 64); [lia | reflexivity].
Qed.

(** A non-negative integer whose bits from 64 on are clear is a word. *)
Lemma in_range_bits (x : Z) :
  (forall i, 0 <= i -> Z.testbit (wrap x) i = Z.testbit x i) -> in_range x.
Proof.
  intros Hbits. rewrite <- (Z.bits_inj' _ _ Hbits). apply wrap_in_range.
Qed.

Lemma xor_in_range (a b : Z) : in_range a -> in_range b -> in_range (xor a b).
Proof.
  intros Ha Hb. apply in_range_bits. intros i Hi.
  rewrite testbit_wrap. unfold xor. rewrite Z.lxor_spec.
  destruct (Z.ltb_spec i 64) as [Hlt | Hge]; [reflexivity |].
  rewrite (testbit_high a i), (testbit_high b i) by assumption. reflexivity.
Qed.

Lemma or_in_range (a b : Z) : in_range a -> in_range b -> in_range (or a b).
Proof.
  intros Ha Hb. apply in_range_bits. intros i Hi.
  rewrite testbit_wrap. unfold or. rewrite Z.lor_spec.
  destruct (Z.ltb_spec i 64) as [Hlt | Hge]; [reflexivity |].
  rewrite (testbit_high a i), (testbit_high b i) by assumption. reflexivity.
Qed.

Lemma shr_in_range (a k : Z) : in_range a -> 0 <= k -> in_range (shr a k).
Proof.
  intros Ha Hk. apply in_range_bits. intros i Hi.
  rewrite testbit_wrap, testbit_shr by assumption.
  destruct (Z.ltb_spec i 64) as [Hlt | Hge]; [reflexivity |].
  rewrite (testbit_high a (i + k)) by (assumption || lia). reflexivity.
Qed.

Lemma shl_in_range (a k : Z) : in_range (shl a k).
Proof. apply wrap_in_range. Qed.

Lemma add_in_range (a b : Z) : in_range (add a b).
Proof. apply wrap_in_range. Qed.

Lemma mul_in_range (a b : Z) : in_range (mul a b).
Proof. apply wrap_in_range. Qed.

(** A right shift of a word is the quotient by a power of two and brings in
    zeros from the top. *)
Lemma shr_zero_fill (z k i : Z) :
  in_range z -> 0 <= k -> 0 <= i ->
  shr z k = z / 2 ^ k /\
  Z.testbit (shr z k) i = (i <? 64 - k) && Z.testbit z (i + k).
Proof.
  intros Hz Hk Hi. split.
  - apply Z.shiftr_div_pow2. exact Hk.
  - rewrite testbit_shr by exact Hi.
    destruct (Z.ltb_spec i (64 - k)) as [Hlt | Hge]; [reflexivity |].
    apply testbit_high; [exact Hz | lia].
Qed.

Lemma shl_mul_pow2 (a k : Z) : 0 <= k -> shl a k = (a * 2 ^ k) mod 2 ^ 64.
Proof. intros Hk. unfold shl, wrap, modulus. rewrite Z.shiftl_mul_pow2 by exact Hk. reflexivity. Qed.

Lemma xor_cancel_r (a b : Z) : xor (xor a b) b = a.
Proof. unfold xor. rewrite Z.lxor_assoc, Z.lxor_nilpotent. apply Z.lxor_0_r. Qed.

Lemma xor_cancel_l (a b : Z) : xor a (xor a b) = b.
Proof. unfold xor. rewrite <- Z.lxor_assoc, Z.lxor_nilpotent. apply Z.lxor_0_l. Qed.

(** ** Rotation *)

Import Xoshiro256StarStar.

Lemma rotate_left_in_range (x k : Z) :
  in_range x -> 0 < k < 64 -> in_range (rotate_left x k).
Proof.
  intros Hx Hk. unfold rotate_left.
  apply or_in_range; [apply shl_in_range | apply shr_in_range; [exact Hx | lia]].
Qed.

(** Bit [i] of the rotated word is bit [i - k] of the argument, counted
    modulo 64. *)
Lemma rotate_left_bits (x k i : Z) :
  in_range x -> 0 < k < 64 -> 0 <= i ->
  Z.testbit (rotate_left x k) i =
    if i <? 64
    then if i <? k then Z.testbit x (i + 64 - k) else Z.testbit x (i - k)
    else false.
Proof.
  intros Hx Hk Hi. unfold rotate_left, or.
  rewrite Z.lor_spec, testbit_shl, testbit_shr by lia.
  replace (i + (64 - k)) with (i + 64 - k) by lia.
  destruct (Z.ltb_spec i 64) as [Hlt | Hge]; simpl.
  - destruct (Z.ltb_spec i k) as [Hik | Hik].
    + rewrite (Z.testbit_neg_r x (i - k)) by lia. reflexivity.
    + rewrite (testbit_high x (i + 64 - k)) by (assumption || lia).
      apply orb_false_r.
  - apply testbit_high; [exact Hx | lia].
Qed.

Lemma rotate_left_inverse (x k : Z) :
  in_range x -> 0 < k < 64 -> rotate_left (rotate_left x k) (64 - k) = x.
Proof.
  intros Hx Hk. apply Z.bits_inj'. intros i Hi.
  rewrite rotate_left_bits
    by (try apply rotate_left_in_range; assumption || lia).
  destruct (Z.ltb_spec i 64) as [Hlt | Hge].
  - destruct (Z.ltb_spec i (64 - k)) as [Hik | Hik];
      rewrite rotate_left_bits by (assumption || lia).
    + replace (i + 64 - (64 - k)) with (i + k) by lia.
      destruct (Z.ltb_spec (i + k) 64); [| lia].
      destruct (Z.ltb_spec (i + k) k); [lia |].
      f_equal. lia.
    + destruct (Z.ltb_spec (i - (64 - k)) 64); [| lia].
      destruct (Z.ltb_spec (i - (64 - k)) k); [| lia].
      f_equal. lia.
  - symmetry. apply testbit_high; assumption.
Qed.

(** ** SplitMix64: one call *)

(** C1.  For every 64-bit state [s], a call of SplitMix64's [operator()]
    stores [s + 0x9e3779b97f4a7c15] modulo [2^64] and returns that value
    after the three rounds [z = (z ^ (z >> 30)) * 0xbf58476d1ce4e5b9],
    [z = (z ^ (z >> 27)) * 0x94d049bb133111eb], [z = z ^ (z >> 31)].  The
    products are taken modulo [2^64]; each shift is the quotient by a power
    of two, so its top bits are zero.  State and output are 64-bit
    values. *)
Theorem splitmix64_next_spec (s : Z) :
  in_range s ->
  let st := (s + 0x9e3779b97f4a7c15) mod 2 ^ 64 in
  let z1 := (Z.lxor st (st / 2 ^ 30) * 0xbf58476d1ce4e5b9) mod 2 ^ 64 in
  let z2 := (Z.lxor z1 (z1 / 2 ^ 27) * 0x94d049bb133111eb) mod 2 ^ 64 in
  let out := Z.lxor z2 (z2 / 2 ^ 31) in
  SplitMix64.next (SplitMix64.mk s) = (out, SplitMix64.mk st) /\
  in_range st /\ in_range out /\
  (forall i, 34 <= i -> Z.testbit (st / 2 ^ 30) i = false) /\
  (forall i, 37 <= i -> Z.testbit (z1 / 2 ^ 27) i = false) /\
  (forall i, 33 <= i -> Z.testbit (z2 / 2 ^ 31) i = false).
Proof.
  intros Hs st z1 z2 out.
  assert (Hst : in_range st) by apply wrap_in_range.
  assert (Hz1 : in_range z1) by apply wrap_in_range.
  assert (Hz2 : in_range z2) by apply wrap_in_range.
  assert (Hfill : forall z k i, in_range z -> 0 <= k -> 64 - k <= i ->
                    0 <= i -> Z.testbit (z / 2 ^ k) i = false).
  { intros z k i Hz Hk Hik Hi.
    destruct (shr_zero_fill z k i Hz Hk Hi) as [Hdiv Hbit].
    rewrite <- Hdiv, Hbit.
    destruct (Z.ltb_spec i (64 - k)); [lia | reflexivity]. }
  split; [| split; [exact Hst | split; [| repeat split]]].
  - unfold SplitMix64.next, add, mul, xor, shr, wrap, modulus. simpl SplitMix64.m_state.
    rewrite !Z.shiftr_div_pow2 by lia. reflexivity.
  - unfold out. rewrite <- Z.shiftr_div_pow2 by lia.
    apply xor_in_range; [exact Hz2 | apply shr_in_range; [exact Hz2 | lia]].
  - intros i Hi. apply Hfill; [exact Hst | lia | lia | lia].
  - intros i Hi. apply Hfill; [exact Hz1 | lia | lia | lia].
  - intros i Hi. apply Hfill; [exact Hz2 | lia | lia | lia].
Qed.

Lemma splitmix64_next_spec_witness :
  in_range 0 /\
  SplitMix64.next (SplitMix64.mk 0) =
    (0xe220a8397b1dcdaf, SplitMix64.mk 0x9e3779b97f4a7c15).
Proof.
  assert (H0 : in_range 0) by (unfold in_range, modulus; lia).
  split; [exact H0 | exact (proj1 (splitmix64_next_spec 0 H0))].
Defined.

Lemma splitmix64_next_valid (g : SplitMix64.t) :
  in_range (fst (SplitMix64.next g)) /\ SplitMix64.valid (snd (SplitMix64.next g)).
Proof.
  unfold SplitMix64.next, SplitMix64.valid. simpl. split.
  - apply xor_in_range; [apply mul_in_range |].
    apply shr_in_range; [apply mul_in_range | lia].
  - apply add_in_range.
Qed.

(** ** xoshiro256**: one call *)

(** C2.  For every state of four 64-bit words, a call of
    Xoshiro256StarStar's [operator()] returns
    [rotate_left(state[1] * 5, 7) * 9] of the state before the call and
    leaves the state obtained by [t = state[1] << 17], [state[2] ^= state[0]],
    [state[3] ^= state[1]], [state[1] ^= state[2]], [state[0] ^= state[3]],
    [state[2] ^= t], [state[3] = rotate_left(state[3], 45)], with products
    and left shifts taken modulo [2^64].  In terms of the words before the
    call the new state is
    [(s0 ^ s3 ^ s1, s1 ^ s2 ^ s0, s2 ^ s0 ^ (s1 << 17), rotl (s3 ^ s1) 45)];
    output and new state are 64-bit values. *)
Theorem xoshiro256starstar_next_spec (s0 s1 s2 s3 : Z) :
  valid (mk s0 s1 s2 s3) ->
  let rotl x k := Z.lor ((x * 2 ^ k) mod 2 ^ 64) (x / 2 ^ (64 - k)) in
  let z := (rotl ((s1 * 5) mod 2 ^ 64) 7 * 9) mod 2 ^ 64 in
  let t := (s1 * 2 ^ 17) mod 2 ^ 64 in
  let s2' := Z.lxor s2 s0 in
  let s3' := Z.lxor s3 s1 in
  let s1' := Z.lxor s1 s2' in
  let s0' := Z.lxor s0 s3' in
  let s2'' := Z.lxor s2' t in
  let s3'' := rotl s3' 45 in
  next (mk s0 s1 s2 s3) = (z, mk s0' s1' s2'' s3'') /\
  mk s0' s1' s2'' s3'' =
    mk (Z.lxor s0 (Z.lxor s3 s1)) (Z.lxor s1 (Z.lxor s2 s0))
       (Z.lxor (Z.lxor s2 s0) ((s1 * 2 ^ 17) mod 2 ^ 64))
       (rotate_left (Z.lxor s3 s1) 45) /\
  in_range z /\ valid (mk s0' s1' s2'' s3'').
Proof.
  intros (H0 & H1 & H2 & H3). simpl in H0, H1, H2, H3. intros rotl.
  assert (Hrotl : forall x k, 0 < k < 64 -> rotl x k = rotate_left x k).
  { intros x k Hk. unfold rotl, rotate_left, or, shr.
    rewrite shl_mul_pow2, Z.shiftr_div_pow2 by lia. reflexivity. }
  intros z t s2' s3' s1' s0' s2'' s3''.
  assert (Ht : t = shl s1 17) by (unfold t; rewrite shl_mul_pow2 by lia; reflexivity).
  assert (Hz : z = mul (rotate_left (mul s1 5) 7) 9).
  { unfold z. rewrite Hrotl by lia. reflexivity. }
  assert (Hs3 : s3'' = rotate_left s3' 45) by (apply Hrotl; lia).
  split; [| split; [| split]].
  - cbv beta iota zeta delta [next].
    f_equal; [symmetry; exact Hz |].
    f_equal; try reflexivity; try (symmetry; exact Hs3).
    unfold s2''. rewrite Ht. reflexivity.
  - f_equal. exact Hs3.
  - rewrite Hz. apply mul_in_range.
  - assert (in_range s2') by (apply xor_in_range; assumption).
    assert (in_range s3') by (apply xor_in_range; assumption).
    unfold valid; simpl. split; [| split; [| split]].
    + apply (xor_in_range s0 s3'); assumption.
    + apply (xor_in_range s1 s2'); assumption.
    + apply (xor_in_range s2' t); [assumption |]. rewrite Ht. apply shl_in_range.
    + rewrite Hs3. apply rotate_left_in_range; [assumption | lia].
Qed.

Lemma xoshiro256starstar_next_spec_witness :
  valid (mk 1 2 3 4) /\
  next (mk 1 2 3 4) = (11520, mk 7 0 262146 211106232532992).
Proof.
  assert (Hv : valid (mk 1 2 3 4))
    by (unfold valid, in_range, modulus; simpl; lia).
  split; [exact Hv | exact (proj1 (xoshiro256starstar_next_spec 1 2 3 4 Hv))].
Defined.

(** ** Seeding *)

(** C3.  For every seed, the constructor of Xoshiro256StarStar leaves in
    words 0, 1, 2, 3 the first, second, third and fourth output of a
    SplitMix64 constructed from the same seed. *)
Theorem xoshiro256starstar_seed_expansion (seed : Z) :
  let g := construct seed in
  [m_state0 g; m_state1 g; m_state2 g; m_state3 g] =
    fst (generate 4 (SplitMix64.construct seed)).
Proof. reflexivity. Qed.

Lemma construct_valid (seed : Z) : valid (construct seed).
Proof.
  unfold construct.
  destruct (SplitMix64.next (SplitMix64.construct seed)) as [a q1] eqn:E1.
  destruct (SplitMix64.next q1) as [b q2] eqn:E2.
  destruct (SplitMix64.next q2) as [c q3] eqn:E3.
  destruct (SplitMix64.next q3) as [d q4] eqn:E4.
  pose proof (proj1 (splitmix64_next_valid (SplitMix64.construct seed))) as Ha.
  pose proof (proj1 (splitmix64_next_valid q1)) as Hb.
  pose proof (proj1 (splitmix64_next_valid q2)) as Hc.
  pose proof (proj1 (splitmix64_next_valid q3)) as Hd.
  rewrite E1 in Ha. rewrite E2 in Hb. rewrite E3 in Hc. rewrite E4 in Hd.
  unfold valid; simpl. auto.
Qed.

Example construct_123 :
  construct 123 =
    mk 0xb4dc9bd462de412b 0xfa023ce9f06fb77c
       0xdc12d311d371cbe8 0xafd2040c909881ff.
Proof. vm_compute. reflexivity. Qed.

(** ** Advertised range *)

(** C5.  [min()] is 0 and [max()] is [2^64 - 1] for SplitMix64 and for
    Xoshiro256StarStar.  Both are static members: they take no generator
    and so cannot depend on a state or a seed. *)
Theorem min_max_constants :
  SplitMix64.min = 0 /\ SplitMix64.max = 2 ^ 64 - 1 /\
  Xoshiro256StarStar.min = 0 /\ Xoshiro256StarStar.max = 2 ^ 64 - 1 /\
  gen_min (G := SplitMix64.t) = 0 /\
  gen_max (G := SplitMix64.t) = 2 ^ 64 - 1 /\
  gen_min (G := Xoshiro256StarStar.t) = 0 /\
  gen_max (G := Xoshiro256StarStar.t) = 2 ^ 64 - 1.
Proof. repeat split. Qed.

(** ** Rotation round trip *)

(** C6.  For every 64-bit [x] and every [k] with [0 < k < 64], rotating
    [x] left by [k] and then by [64 - k] gives [x] back, where
    [rotate_left x k] is [(x << k) | (x >> (64 - k))] on 64 bits. *)
Theorem rotate_left_round_trip (x k : Z) :
  in_range x -> 0 < k < 64 ->
  rotate_left x k = Z.lor ((x * 2 ^ k) mod 2 ^ 64) (x / 2 ^ (64 - k)) /\
  rotate_left (rotate_left x k) (64 - k) = x.
Proof.
  intros Hx Hk. split.
  - unfold rotate_left, or, shr.
    rewrite shl_mul_pow2, Z.shiftr_div_pow2 by lia. reflexivity.
  - apply rotate_left_inverse; assumption.
Qed.

Lemma rotate_left_round_trip_witness :
  in_range 0x0123456789abcdef /\ 0 < 7 < 64 /\
  rotate_left 0x0123456789abcdef 7 = 0x91a2b3c4d5e6f780 /\
  rotate_left (rotate_left 0x0123456789abcdef 7) (64 - 7) = 0x0123456789abcdef.
Proof.
  assert (Hx : in_range 0x0123456789abcdef) by (unfold in_range, modulus; lia).
  assert (Hk : 0 < 7 < 64) by lia.
  split; [exact Hx | split; [exact Hk |]].
  split; [reflexivity |].
  exact (proj2 (rotate_left_round_trip 0x0123456789abcdef 7 Hx Hk)).
Defined.

(** ** Runs of any generator *)

Section RunFacts.

Context {G : Type} `{Generator G}.

Lemma generate_S (n : nat) (g : G) :
  generate (S n) g =
    (fst (gen_next g) :: fst (generate n (snd (gen_next g))),
     snd (generate n (snd (gen_next g)))).
Proof.
  simpl. destruct (gen_next g) as [x g1]. simpl.
  destruct (generate n g1) as [xs g2]. reflexivity.
Qed.

Lemma generate_length (n : nat) (g : G) :
  List.length (fst (generate n g)) = n.
Proof.
  revert g. induction n as [| n IH]; intros g; [reflexivity |].
  rewrite generate_S. simpl. rewrite IH. reflexivity.
Qed.

(** Calls run one after the other split at any point. *)
Lemma generate_add (m n : nat) (g : G) :
  generate (m + n) g =
    (fst (generate m g) ++ fst (generate n (snd (generate m g))),
     snd (generate n (snd (generate m g)))).
Proof.
  revert g. induction m as [| m IH]; intros g.
  - simpl. destruct (generate n g). reflexivity.
  - change (S m + n)%nat with (S (m + n)).
    rewrite (generate_S (m + n)), (generate_S m), IH. reflexivity.
Qed.

(** Each of two objects sees its own calls only: whatever the
    interleaving, it behaves as if it ran alone. *)
Lemma interleave_generate (sched : list which) (g1 g2 : G) :
  interleave sched g1 g2 =
    (generate (calls First sched) g1, generate (calls Second sched) g2).
Proof.
  revert g1 g2. induction sched as [| w rest IH]; intros g1 g2.
  - reflexivity.
  - destruct w.
    + change (calls First (First :: rest)) with (S (calls First rest)).
      change (calls Second (First :: rest)) with (calls Second rest).
      rewrite generate_S. cbn [interleave].
      destruct (gen_next g1) as [x g1']. rewrite IH. cbn [fst snd].
      destruct (generate (calls First rest) g1') as [xs h1]. reflexivity.
    + change (calls First (Second :: rest)) with (calls First rest).
      change (calls Second (Second :: rest)) with (S (calls Second rest)).
      rewrite generate_S. cbn [interleave].
      destruct (gen_next g2) as [x g2']. rewrite IH. cbn [fst snd].
      destruct (generate (calls Second rest) g2') as [ys h2]. reflexivity.
Qed.

Lemma same_seed_same_run (seed : Z) (n : nat) (sched : list which) :
  calls First sched = n -> calls Second sched = n ->
  let run := interleave sched (gen_construct seed) (gen_construct seed) in
  fst run = snd run /\
  fst run = generate n (gen_construct seed) /\
  List.length (fst (fst run)) = n.
Proof.
  intros H1 H2 run. unfold run. rewrite interleave_generate, H1, H2. simpl.
  split; [reflexivity | split; [reflexivity | apply generate_length]].
Qed.

End RunFacts.

(** C4.  For every seed, every [n] and both generator types: two
    generators constructed from the seed and advanced by [n] calls each, in
    any interleaving of the calls, produce the same output sequence of
    length [n] and end in the same state, namely the ones of a single
    generator run alone; a call depends on the state of its own object
    only. *)
Theorem same_seed_same_sequence (seed : Z) (n : nat) (sched : list which) :
  calls First sched = n -> calls Second sched = n ->
  (let run := interleave sched (SplitMix64.construct seed)
                (SplitMix64.construct seed) in
   fst (fst run) = fst (snd run) /\ snd (fst run) = snd (snd run) /\
   fst run = generate n (SplitMix64.construct seed) /\
   List.length (fst (fst run)) = n) /\
  (let run := interleave sched (Xoshiro256StarStar.construct seed)
                (Xoshiro256StarStar.construct seed) in
   fst (fst run) = fst (snd run) /\ snd (fst run) = snd (snd run) /\
   fst run = generate n (Xoshiro256StarStar.construct seed) /\
   List.length (fst (fst run)) = n) /\
  (forall g h : SplitMix64.t, g = h -> SplitMix64.next g = SplitMix64.next h) /\
  (forall g h : Xoshiro256StarStar.t,
     g = h -> Xoshiro256StarStar.next g = Xoshiro256StarStar.next h).
Proof.
  intros H1 H2.
  destruct (same_seed_same_run (G := SplitMix64.t) seed n sched H1 H2)
    as (Ha & Hb & Hc).
  destruct (same_seed_same_run (G := Xoshiro256StarStar.t) seed n sched H1 H2)
    as (Ha' & Hb' & Hc').
  simpl in Ha, Hb, Hc, Ha', Hb', Hc'.
  split; [| split; [| split]].
  - cbv zeta. rewrite <- Ha. auto.
  - cbv zeta. rewrite <- Ha'. auto.
  - intros g h E. rewrite E. reflexivity.
  - intros g h E. rewrite E. reflexivity.
Qed.

Lemma same_seed_same_sequence_witness :
  calls First [First; Second; Second; First] = 2%nat /\
  calls Second [First; Second; Second; First] = 2%nat /\
  interleave [First; Second; Second; First]
    (SplitMix64.construct 123) (SplitMix64.construct 123) =
    (generate 2 (SplitMix64.construct 123),
     generate 2 (SplitMix64.construct 123)) /\
  fst (interleave [First; Second; Second; First]
         (Xoshiro256StarStar.construct 123)
         (Xoshiro256StarStar.construct 123)) =
    generate 2 (Xoshiro256StarStar.construct 123).
Proof.
  assert (H1 : calls First [First; Second; Second; First] = 2%nat)
    by reflexivity.
  assert (H2 : calls Second [First; Second; Second; First] = 2%nat)
    by reflexivity.
  pose proof (same_seed_same_sequence 123 2 _ H1 H2) as (Hs & Hx & _).
  cbv zeta in Hs, Hx.
  destruct Hs as (Hs1 & Hs2 & Hs3 & _). destruct Hx as (_ & _ & Hx3 & _).
  split; [exact H1 | split; [exact H2 | split; [| exact Hx3]]].
  rewrite <- Hs3.
  destruct (interleave [First; Second; Second; First]
              (SplitMix64.construct 123) (SplitMix64.construct 123))
    as [[xs h1] [ys h2]].
  simpl in Hs1, Hs2. rewrite Hs1, Hs2. reflexivity.
Defined.

(** ** The all-zero state of xoshiro256** *)

Lemma next_zero : next zero = (0, zero).
Proof. reflexivity. Qed.

(** C7.  From the all-zero state every call of Xoshiro256StarStar's
    [operator()] returns 0 and leaves the state all-zero: the first [n]
    outputs are [n] zeros, for every [n]. *)
Theorem zero_state_is_absorbing (n : nat) :
  next zero = (0, zero) /\
  generate n zero = (repeat 0 n, zero) /\
  Forall (fun x => x = 0) (fst (generate n zero)).
Proof.
  assert (Hgen : forall m, generate m zero = (repeat 0 m, zero)).
  { induction m as [| m IH]; [reflexivity |].
    rewrite generate_S. change (gen_next zero) with (next zero).
    rewrite next_zero. cbn [fst snd].
    rewrite IH. reflexivity. }
  split; [exact next_zero | split; [apply Hgen |]].
  rewrite Hgen. simpl. apply Forall_forall. intros x Hx.
  apply repeat_spec in Hx. exact Hx.
Qed.

(** ** The state transition of xoshiro256** is invertible *)

Lemma unshift17_shift (x : Z) : unshift17 (xor x (shl x 17)) = x.
Proof.
  apply Z.bits_inj'. intros i Hi. unfold unshift17, xor.
  repeat (rewrite Z.lxor_spec || rewrite testbit_shl by lia).
  destruct (Z.ltb_spec i 64) as [Hlt | Hge].
  - rewrite (Z.testbit_neg_r x (i - 17 - 17 - 17 - 17)) by lia.
    ltb_true. split_bits x; reflexivity.
  - simpl. rewrite !xorb_false_r. reflexivity.
Qed.

Lemma shift_unshift17 (v : Z) : xor (unshift17 v) (shl (unshift17 v) 17) = v.
Proof.
  apply Z.bits_inj'. intros i Hi. unfold unshift17, xor.
  repeat (rewrite Z.lxor_spec || rewrite testbit_shl by lia).
  destruct (Z.ltb_spec i 64) as [Hlt | Hge].
  - rewrite (Z.testbit_neg_r v (i - 17 - 17 - 17 - 17)) by lia.
    ltb_true. split_bits v; reflexivity.
  - simpl. rewrite !xorb_false_r. reflexivity.
Qed.

Lemma unshift17_in_range (v : Z) : in_range v -> in_range (unshift17 v).
Proof.
  intros Hv. unfold unshift17.
  apply xor_in_range; [exact Hv | apply shl_in_range].
Qed.

Lemma step_eq (s0 s1 s2 s3 : Z) :
  step (mk s0 s1 s2 s3) =
    mk (xor s0 (xor s3 s1)) (xor s1 (xor s2 s0))
       (xor (xor s2 s0) (shl s1 17)) (rotate_left (xor s3 s1) 45).
Proof. reflexivity. Qed.

Lemma step_valid (g : t) : valid g -> valid (step g).
Proof.
  destruct g as [s0 s1 s2 s3]. intros (H0 & H1 & H2 & H3).
  simpl in H0, H1, H2, H3. rewrite step_eq. unfold valid; simpl.
  assert (in_range (xor s3 s1)) by (apply xor_in_range; assumption).
  assert (in_range (xor s2 s0)) by (apply xor_in_range; assumption).
  split; [| split; [| split]].
  - apply xor_in_range; assumption.
  - apply xor_in_range; assumption.
  - apply xor_in_range; [assumption | apply shl_in_range].
  - apply rotate_left_in_range; [assumption | lia].
Qed.

Lemma prev_valid (g : t) : valid g -> valid (prev g).
Proof.
  destruct g as [a b c d]. intros (Ha & Hb & Hc & Hd).
  simpl in Ha, Hb, Hc, Hd. unfold prev, valid; simpl.
  assert (Hu : in_range (rotate_left d 19))
    by (apply rotate_left_in_range; [assumption | lia]).
  assert (Hs1 : in_range (unshift17 (xor b c)))
    by (apply unshift17_in_range, xor_in_range; assumption).
  split; [| split; [| split]].
  - apply xor_in_range; assumption.
  - exact Hs1.
  - apply xor_in_range; [apply xor_in_range |]; try assumption.
    apply xor_in_range; assumption.
  - apply xor_in_range; assumption.
Qed.

Lemma prev_step (g : t) : valid g -> prev (step g) = g.
Proof.
  destruct g as [s0 s1 s2 s3]. intros (H0 & H1 & H2 & H3).
  simpl in H0, H1, H2, H3. rewrite step_eq. unfold prev.
  assert (Hu : rotate_left (rotate_left (xor s3 s1) 45) 19 = xor s3 s1).
  { apply (rotate_left_inverse (xor s3 s1) 45); [| lia].
    apply xor_in_range; assumption. }
  assert (Hs1 : unshift17 (xor (xor s1 (xor s2 s0)) (xor (xor s2 s0) (shl s1 17)))
                = s1).
  { replace (xor (xor s1 (xor s2 s0)) (xor (xor s2 s0) (shl s1 17)))
      with (xor s1 (shl s1 17)); [apply unshift17_shift |].
    unfold xor. rewrite Z.lxor_assoc.
    rewrite <- (Z.lxor_assoc (Z.lxor s2 s0)), Z.lxor_nilpotent, Z.lxor_0_l.
    reflexivity. }
  rewrite Hu, Hs1, (xor_cancel_r s0 (xor s3 s1)), (xor_cancel_r s3 s1).
  f_equal. unfold xor. rewrite (Z.lxor_comm s1 (Z.lxor s2 s0)).
  fold (xor s2 s0). fold (xor (xor s2 s0) s1).
  fold (xor (xor (xor s2 s0) s1) s1).
  rewrite (xor_cancel_r (xor s2 s0) s1). apply xor_cancel_r.
Qed.

Lemma step_prev (g : t) : valid g -> step (prev g) = g.
Proof.
  destruct g as [a b c d]. intros (Ha & Hb & Hc & Hd).
  simpl in Ha, Hb, Hc, Hd. unfold prev. rewrite step_eq.
  set (u := rotate_left d 19). set (s1 := unshift17 (xor b c)).
  assert (Hus : xor (xor u s1) s1 = u) by apply xor_cancel_r.
  assert (Hb1 : xor (xor (xor b s1) (xor a u)) (xor a u) = xor b s1)
    by apply xor_cancel_r.
  rewrite Hus, Hb1. f_equal.
  - apply xor_cancel_r.
  - unfold xor. rewrite (Z.lxor_comm b s1). apply xor_cancel_l.
  - unfold xor. rewrite Z.lxor_assoc.
    change (Z.lxor s1 (shl s1 17))
      with (xor (unshift17 (xor b c)) (shl (unshift17 (xor b c)) 17)).
    rewrite shift_unshift17. apply xor_cancel_l.
  - unfold u. replace 45 with (64 - 19) by reflexivity.
    apply rotate_left_inverse; [assumption | lia].
Qed.

Lemma step_zero : step zero = zero.
Proof. reflexivity. Qed.

Lemma zero_valid : valid zero.
Proof. unfold valid, zero, in_range, modulus; simpl. lia. Qed.

Lemma step_injective (g h : t) : valid g -> valid h -> step g = step h -> g = h.
Proof.
  intros Hg Hh E. rewrite <- (prev_step g Hg), <- (prev_step h Hh), E.
  reflexivity.
Qed.

Lemma step_nonzero (g : t) : valid g -> g <> zero -> step g <> zero.
Proof.
  intros Hg Hnz E. apply Hnz.
  apply step_injective; [exact Hg | exact zero_valid |].
  rewrite step_zero. exact E.
Qed.

Lemma generate_nonzero (n : nat) (g : t) :
  valid g -> g <> zero ->
  valid (snd (generate n g)) /\ snd (generate n g) <> zero.
Proof.
  revert g. induction n as [| n IH]; intros g Hg Hnz.
  - simpl. split; assumption.
  - rewrite generate_S. cbn [snd]. change (snd (gen_next g)) with (step g).
    apply IH; [apply step_valid | apply step_nonzero]; assumption.
Qed.

(** C9.  On states of four 64-bit words the state transition of
    Xoshiro256StarStar's [operator()] is a bijection: it maps states to
    states, [prev] is its inverse on both sides, hence it is injective and
    onto.  So a state that is not all-zero is followed by a state that is
    not all-zero, and stays so after any number of calls. *)
Theorem step_is_bijection (g : t) :
  valid g ->
  (valid (step g) /\ valid (prev g) /\ prev (step g) = g /\ step (prev g) = g) /\
  (forall h, valid h -> step g = step h -> g = h) /\
  (exists p, valid p /\ step p = g) /\
  (g <> zero -> step g <> zero) /\
  (g <> zero -> forall n, snd (generate n g) <> zero).
Proof.
  intros Hg. split; [| split; [| split; [| split]]].
  - split; [apply step_valid | split; [apply prev_valid | split]];
      try assumption; [apply prev_step | apply step_prev]; assumption.
  - intros h Hh E. apply step_injective; assumption.
  - exists (prev g). split; [apply prev_valid | apply step_prev]; assumption.
  - apply step_nonzero. exact Hg.
  - intros Hnz n. apply (generate_nonzero n g Hg Hnz).
Qed.

Lemma step_is_bijection_witness :
  valid (mk 1 2 3 4) /\
  prev (step (mk 1 2 3 4)) = mk 1 2 3 4 /\
  step (prev (mk 1 2 3 4)) = mk 1 2 3 4 /\
  step (mk 1 2 3 4) <> zero.
Proof.
  assert (Hv : valid (mk 1 2 3 4))
    by (unfold valid, in_range, modulus; simpl; lia).
  assert (Hnz : mk 1 2 3 4 <> zero) by discriminate.
  destruct (step_is_bijection (mk 1 2 3 4) Hv)
    as ((_ & _ & Hps & Hsp) & _ & _ & Hstep & _).
  split; [exact Hv | split; [exact Hps | split; [exact Hsp | exact (Hstep Hnz)]]].
Defined.

(** ** The byte-dump loop *)

Import Dieharder.

Lemma block_bytes : sizeof_uint64_t * block_size = 8192.
Proof. reflexivity. Qed.

Section WriterFacts.

Context {G : Type} `{Generator G}.

Lemma write_loop_exit (fuel : nat) (bytes : Z) (rng : G) (written : Z)
    (out : list Z) :
  bytes <= written -> write_loop fuel bytes rng written out = Some (written, out).
Proof.
  intros Hdone. destruct fuel; simpl;
    destruct (Z.ltb_spec written bytes); (lia || reflexivity).
Qed.

Lemma write_loop_body (fuel : nat) (bytes : Z) (rng : G) (written : Z)
    (out : list Z) :
  written < bytes ->
  write_loop (S fuel) bytes rng written out =
    write_loop fuel bytes (snd (generate (Z.to_nat block_size) rng))
      (add written 8192) (out ++ fst (generate (Z.to_nat block_size) rng)).
Proof.
  intros Hmore. cbn [write_loop].
  destruct (Z.ltb_spec written bytes); [| lia].
  destruct (generate (Z.to_nat block_size) rng) as [data rng'].
  reflexivity.
Qed.

Lemma write_loop_stalled (bytes : Z) (rng : G) (written : Z) (out : list Z) :
  written < bytes -> write_loop 0 bytes rng written out = None.
Proof.
  intros Hmore. simpl. destruct (Z.ltb_spec written bytes); [reflexivity | lia].
Qed.

(** With [r] blocks to go and no wrap-around on the way, [r] iterations
    are run and [r] blocks are written. *)
Lemma write_loop_blocks (bytes : Z) (r : nat) :
  forall (fuel : nat) (rng : G) (written : Z) (out : list Z),
    (r <= fuel)%nat -> 0 <= written ->
    written + 8192 * Z.of_nat r < modulus ->
    written + 8192 * (Z.of_nat r - 1) < bytes <= written + 8192 * Z.of_nat r ->
    write_loop fuel bytes rng written out =
      Some (written + 8192 * Z.of_nat r,
            out ++ fst (generate (Z.to_nat block_size * r) rng)).
Proof.
  induction r as [| r IH]; intros fuel rng written out Hfuel Hw Hfit Hb.
  - rewrite write_loop_exit by lia.
    rewrite Nat.mul_0_r. simpl. rewrite app_nil_r. f_equal. f_equal. lia.
  - destruct fuel as [| fuel]; [lia |].
    rewrite write_loop_body by lia.
    assert (Hadd : add written 8192 = written + 8192).
    { unfold add. apply wrap_small. unfold in_range. lia. }
    rewrite Hadd, IH by lia.
    rewrite Nat.mul_succ_r, Nat.add_comm, generate_add. cbn [fst].
    rewrite app_assoc. f_equal. f_equal. lia.
Qed.

(** Fewer iterations than blocks to go do not reach the exit. *)
Lemma write_loop_short (bytes : Z) (fuel : nat) :
  forall (r : nat) (rng : G) (written : Z) (out : list Z),
    (fuel < r)%nat -> 0 <= written ->
    written + 8192 * Z.of_nat r < modulus ->
    written + 8192 * (Z.of_nat r - 1) < bytes ->
    write_loop fuel bytes rng written out = None.
Proof.
  induction fuel as [| fuel IH]; intros r rng written out Hfuel Hw Hfit Hb.
  - apply write_loop_stalled. lia.
  - rewrite write_loop_body by lia.
    assert (Hadd : add written 8192 = written + 8192).
    { unfold add. apply wrap_small. unfold in_range. lia. }
    rewrite Hadd. apply (IH (pred r)); lia.
Qed.

(** A request above [2^64 - 8192]: the running total is a multiple of
    8192 below [2^64], so it never reaches the request. *)
Lemma write_loop_wraps (bytes : Z) (fuel : nat) :
  modulus - 8192 < bytes ->
  forall (rng : G) (written : Z) (out : list Z),
    in_range written -> written mod 8192 = 0 ->
    write_loop fuel bytes rng written out = None.
Proof.
  intros Hbig. induction fuel as [| fuel IH]; intros rng written out Hw Hmul.
  - apply write_loop_stalled.
    unfold in_range, modulus in *. apply Z.mod_divide in Hmul; [| lia].
    destruct Hmul as [q Hq]. lia.
  - assert (Hlt : written < bytes).
    { unfold in_range, modulus in *. apply Z.mod_divide in Hmul; [| lia].
      destruct Hmul as [q Hq]. lia. }
    rewrite write_loop_body by exact Hlt.
    apply IH; [apply add_in_range |].
    unfold add, wrap, modulus.
    rewrite Z.mod_mod_divide by (exists (2 ^ 51); reflexivity).
    rewrite <- Z.add_mod_idemp_l, Hmul by lia. reflexivity.
Qed.

Lemma write_random_bytes_blocks (seed b : Z) (fuel : nat) :
  0 <= b <= modulus - 8192 ->
  write_random_bytes_to_stdout fuel seed b =
    if (Z.to_nat ((b + 8191) / 8192) <=? fuel)%nat
    then Some (fst (generate (Z.to_nat block_size * Z.to_nat ((b + 8191) / 8192))
                      (gen_construct seed)))
    else None.
Proof.
  intros Hb. unfold write_random_bytes_to_stdout.
  set (q := (b + 8191) / 8192).
  assert (Hq : 8192 * (q - 1) < b <= 8192 * q /\ 0 <= q).
  { unfold q. pose proof (Z.div_mod (b + 8191) 8192 ltac:(lia)) as Hdm.
    pose proof (Z.mod_pos_bound (b + 8191) 8192 ltac:(lia)). lia. }
  assert (Hfit : 8192 * q < modulus).
  { lia. }
  destruct (Nat.leb_spec (Z.to_nat q) fuel) as [Hle | Hgt].
  - rewrite (write_loop_blocks b (Z.to_nat q)); rewrite ?Z2Nat.id; try lia.
    reflexivity.
  - rewrite (write_loop_short b fuel (Z.to_nat q)); rewrite ?Z2Nat.id; try lia.
    reflexivity.
Qed.

End WriterFacts.

(** C10 (amended).  For every generator type, every seed and every
    requested byte count [b <= 2^64 - 8192], [write_random_bytes_to_stdout]
    returns after exactly [ceil (b / 8192)] iterations, having written that
    many whole blocks of 1024 successive 64-bit outputs (8192 bytes each):
    the number of bytes written is the smallest multiple of 8192 that is
    [>= b], it exceeds [b] unless [b] is itself such a multiple, and it is
    zero for [b = 0]. *)
Theorem write_random_bytes_whole_blocks
    (G : Type) (GenG : Generator G) (seed b : Z) :
  0 <= b <= 2 ^ 64 - 8192 ->
  let blocks := (b + 8191) / 8192 in
  let out :=
    fst (generate (Z.to_nat block_size * Z.to_nat blocks) (gen_construct seed)) in
  (forall fuel,
     write_random_bytes_to_stdout fuel seed b =
       if (Z.to_nat blocks <=? fuel)%nat then Some out else None) /\
  bytes_of out = 8192 * blocks /\
  b <= 8192 * blocks /\
  (forall m, b <= 8192 * m -> 8192 * blocks <= 8192 * m) /\
  (b mod 8192 <> 0 -> b < bytes_of out) /\
  (b = 0 -> out = []).
Proof.
  intros Hb blocks out.
  assert (Hq : 8192 * (blocks - 1) < b <= 8192 * blocks /\ 0 <= blocks).
  { unfold blocks. pose proof (Z.div_mod (b + 8191) 8192 ltac:(lia)) as Hdm.
    pose proof (Z.mod_pos_bound (b + 8191) 8192 ltac:(lia)). lia. }
  assert (Hbytes : bytes_of out = 8192 * blocks).
  { unfold bytes_of, out. rewrite generate_length, Nat2Z.inj_mul.
    rewrite !Z2Nat.id by (unfold block_size; lia).
    unfold sizeof_uint64_t, block_size. lia. }
  split; [| split; [exact Hbytes | split; [lia | split; [| split]]]].
  - intros fuel. apply write_random_bytes_blocks. exact Hb.
  - intros m Hm. lia.
  - intros Hrem. rewrite Hbytes.
    assert (b <> 8192 * blocks); [| lia].
    intros E. apply Hrem. rewrite E, Z.mul_comm. apply Z.mod_mul. lia.
  - intros E. unfold out, blocks. rewrite E. reflexivity.
Qed.

Lemma write_random_bytes_whole_blocks_witness :
  0 <= 8193 <= 2 ^ 64 - 8192 /\
  write_random_bytes_to_stdout (G := SplitMix64.t) 5 0 8193 =
    Some (fst (generate 2048 (SplitMix64.construct 0))) /\
  write_random_bytes_to_stdout (G := SplitMix64.t) 1 0 8193 = None /\
  bytes_of (fst (generate 2048 (SplitMix64.construct 0))) = 16384.
Proof.
  assert (Hb : 0 <= 8193 <= 2 ^ 64 - 8192) by lia.
  destruct (write_random_bytes_whole_blocks SplitMix64.t _ 0 8193 Hb)
    as (Hrun & Hbytes & _).
  change (Z.to_nat ((8193 + 8191) / 8192)) with 2%nat in Hrun, Hbytes.
  change (Z.to_nat block_size * 2)%nat with 2048%nat in Hrun, Hbytes.
  split; [exact Hb | split; [exact (Hrun 5%nat) | split; [exact (Hrun 1%nat) |]]].
  exact Hbytes.
Defined.

(** C10 as stated fails for requests above [2^64 - 8192]: the running
    total goes from [2^64 - 8192] back to 0 and the loop never ends. *)
Lemma write_random_bytes_never_returns :
  ~ exists fuel out,
      write_random_bytes_to_stdout (G := SplitMix64.t) fuel 0 (2 ^ 64 - 1)
        = Some out.
Proof.
  intros (fuel & out & Hrun). unfold write_random_bytes_to_stdout in Hrun.
  rewrite (write_loop_wraps (2 ^ 64 - 1) fuel) in Hrun.
  - discriminate Hrun.
  - unfold modulus. lia.
  - unfold in_range, modulus. lia.
  - reflexivity.
Qed.

(** ** The byte-dump program's [main] *)

Section MainFacts.

Variable strtoull : string -> Z.

(** [main] asks for a multiple of [2^20] bytes, which the loop reaches
    without wrap-around. *)
Lemma main_bytes_bound (x : Z) :
  0 <= mul (1024 * 1024) (wrap x) <= modulus - 8192.
Proof.
  unfold mul, wrap, modulus.
  change (2 ^ 64) with (1024 * 1024 * 2 ^ 44).
  rewrite Z.mul_mod_distr_l by lia.
  pose proof (Z.mod_pos_bound (x mod (1024 * 1024 * 2 ^ 44)) (2 ^ 44) ltac:(lia)).
  lia.
Qed.

Lemma select_registry (rng : string) (entry : RngRegistryEntry) :
  select registry rng = Some entry ->
  entry = mkEntry "splitmix64" (write_random_bytes_to_stdout (G := SplitMix64.t)) \/
  entry = mkEntry "xoshiro256**"
            (write_random_bytes_to_stdout (G := Xoshiro256StarStar.t)).
Proof.
  unfold registry. cbn [select name].
  destruct (String.eqb "splitmix64" rng); [intros E; left; congruence |].
  destruct (String.eqb "xoshiro256**" rng); [intros E; right; congruence |].
  discriminate.
Qed.

Lemma select_unknown (rng : string) :
  select registry rng = None <->
  rng <> "splitmix64"%string /\ rng <> "xoshiro256**"%string.
Proof.
  unfold registry. cbn [select name].
  destruct (String.eqb_spec "splitmix64" rng) as [E1 | N1].
  - split; [discriminate | intros [N _]; congruence].
  - destruct (String.eqb_spec "xoshiro256**" rng) as [E2 | N2].
    + split; [discriminate | intros [_ N]; congruence].
    + split; [intros _; split; congruence | reflexivity].
Qed.


(** [main] always returns. *)
Lemma main_returns (argv : list string) :
  exists fuel o, main strtoull fuel argv = Some o.
Proof.
  unfold main.
  destruct ((Z.of_nat (List.length argv) <? 3) || (4 <? Z.of_nat (List.length argv))).
  - exists 0%nat. eexists. reflexivity.
  - set (bytes := mul (1024 * 1024) (wrap (strtoull (nth 2 argv EmptyString)))).
    set (seed := if Z.of_nat (List.length argv) =? 4
                 then wrap (strtoull (nth 3 argv EmptyString)) else 1234567890).
    pose proof (main_bytes_bound (strtoull (nth 2 argv EmptyString))) as Hb.
    fold bytes in Hb.
    destruct (select registry (nth 1 argv EmptyString)) as [entry |] eqn:Esel.
    + exists (Z.to_nat ((bytes + 8191) / 8192)).
      destruct (select_registry _ _ Esel) as [-> | ->]; cbn [func];
        rewrite write_random_bytes_blocks by exact Hb;
        rewrite Nat.leb_refl; eexists; reflexivity.
    + exists 0%nat. eexists. reflexivity.
Qed.

(** A name outside the registry gets the diagnostic, and then
    [EXIT_SUCCESS]. *)
Lemma main_unknown_rng (fuel : nat) (argv : list string) :
  3 <= Z.of_nat (List.length argv) <= 4 ->
  select registry (nth 1 argv EmptyString) = None ->
  main strtoull fuel argv =
    Some (mkOutcome EXIT_SUCCESS
            [("unknown rng '" ++ nth 1 argv EmptyString ++ "'" ++ nl)%string] []).
Proof.
  intros Hargc Hsel. unfold main. rewrite Hsel.
  destruct (Z.ltb_spec (Z.of_nat (List.length argv)) 3); [lia |].
  destruct (Z.ltb_spec 4 (Z.of_nat (List.length argv))); [lia |].
  reflexivity.
Qed.

Lemma main_usage (fuel : nat) (argv : list string) :
  Z.of_nat (List.length argv) < 3 \/ 4 < Z.of_nat (List.length argv) ->
  main strtoull fuel argv =
    Some (mkOutcome EXIT_FAILURE (usage (nth 0 argv EmptyString)) []).
Proof.
  intros Hargc. unfold main.
  destruct (Z.ltb_spec (Z.of_nat (List.length argv)) 3); [reflexivity |].
  destruct (Z.ltb_spec 4 (Z.of_nat (List.length argv))); [reflexivity | lia].
Qed.

End MainFacts.

(** C8.  Run as [example_prng_dieharder mt19937 1], a name that is not in
    the registry, [main] prints the diagnostic [unknown rng 'mt19937'] on
    standard error, writes nothing and returns [EXIT_SUCCESS], that is 0,
    where a wrong number of arguments returns [EXIT_FAILURE]. *)
Theorem main_unknown_rng_exit_success (strtoull : string -> Z) (fuel : nat) :
  select registry "mt19937" = None /\
  main strtoull fuel ["example_prng_dieharder"; "mt19937"; "1"]%string =
    Some (mkOutcome EXIT_SUCCESS [("unknown rng 'mt19937'" ++ nl)%string] []) /\
  EXIT_SUCCESS = 0 /\
  main strtoull fuel ["example_prng_dieharder"; "mt19937"]%string =
    Some (mkOutcome EXIT_FAILURE (usage "example_prng_dieharder") []) /\
  EXIT_FAILURE = 1.
Proof. repeat split. Qed.

(** * Further properties *)

(** ** Words: congruences and invertible operations *)

Lemma wrap_eq_iff (x y : Z) :
  wrap x = wrap y <-> exists q, x = y + q * modulus.
Proof.
  unfold wrap. split.
  - intros E. exists (x / modulus - y / modulus).
    pose proof (Z.div_mod x modulus ltac:(discriminate)) as Hx.
    pose proof (Z.div_mod y modulus ltac:(discriminate)) as Hy.
    rewrite E in Hx. lia.
  - intros [q ->]. apply Z_mod_plus_full.
Qed.

Lemma wrap_wrap_add (a b : Z) : wrap (wrap a + b) = wrap (a + b).
Proof. unfold wrap. apply Z.add_mod_idemp_l. discriminate. Qed.

(** Multiplying by a unit modulo [2^64] is undone by multiplying by its
    inverse. *)
Lemma mul_inverse (z m m' : Z) :
  wrap (m * m') = 1 -> in_range z -> mul (mul z m) m' = z.
Proof.
  intros Hinv Hz. unfold mul, wrap in *.
  rewrite Z.mul_mod_idemp_l by discriminate.
  rewrite <- Z.mul_assoc, <- Z.mul_mod_idemp_r by discriminate.
  rewrite Hinv, Z.mul_1_r. apply Z.mod_small. exact Hz.
Qed.

Lemma unxorshift_xorshift (z k : Z) :
  in_range z -> 22 <= k -> unxorshift (xor z (shr z k)) k = z.
Proof.
  intros Hz Hk. apply Z.bits_inj'. intros i Hi. unfold unxorshift, xor.
  repeat (rewrite Z.lxor_spec || rewrite testbit_shr by lia).
  rewrite (testbit_high z (i + k + k + k)) by (assumption || lia).
  split_bits z; reflexivity.
Qed.

Lemma xorshift_unxorshift (y k : Z) :
  in_range y -> 22 <= k -> xor (unxorshift y k) (shr (unxorshift y k) k) = y.
Proof.
  intros Hy Hk. apply Z.bits_inj'. intros i Hi. unfold unxorshift, xor.
  repeat (rewrite Z.lxor_spec || rewrite testbit_shr by lia).
  rewrite (testbit_high y (i + k + k + k)) by (assumption || lia).
  split_bits y; reflexivity.
Qed.

Lemma xorshift_in_range (z k : Z) :
  in_range z -> 0 <= k -> in_range (xor z (shr z k)).
Proof.
  intros Hz Hk. apply xor_in_range; [exact Hz | apply shr_in_range; assumption].
Qed.

Lemma unxorshift_in_range (y k : Z) :
  in_range y -> 0 <= k -> in_range (unxorshift y k).
Proof.
  intros Hy Hk. unfold unxorshift.
  apply xor_in_range; [exact Hy |].
  apply shr_in_range; [apply xorshift_in_range; assumption | exact Hk].
Qed.

(** ** SplitMix64: the output is a one-to-one function of the state *)

Lemma splitmix64_next_mix (g : SplitMix64.t) :
  SplitMix64.next g =
    (splitmix64_mix (add (SplitMix64.m_state g) splitmix64_gamma),
     SplitMix64.mk (add (SplitMix64.m_state g) splitmix64_gamma)).
Proof. reflexivity. Qed.

Lemma splitmix64_mix_in_range (z : Z) : in_range (splitmix64_mix z).
Proof.
  unfold splitmix64_mix. apply xorshift_in_range; [apply mul_in_range | lia].
Qed.

Lemma splitmix64_unmix_in_range (y : Z) : in_range y -> in_range (splitmix64_unmix y).
Proof.
  intros Hy. unfold splitmix64_unmix.
  apply unxorshift_in_range; [apply mul_in_range | lia].
Qed.

Lemma splitmix64_unmix_mix (z : Z) :
  in_range z -> splitmix64_unmix (splitmix64_mix z) = z.
Proof.
  intros Hz. unfold splitmix64_unmix, splitmix64_mix.
  rewrite unxorshift_xorshift by (apply mul_in_range || lia).
  rewrite mul_inverse
    by (reflexivity || (apply xorshift_in_range; [apply mul_in_range | lia])).
  rewrite unxorshift_xorshift by (apply mul_in_range || lia).
  rewrite mul_inverse
    by (reflexivity || (apply xorshift_in_range; [exact Hz | lia])).
  apply unxorshift_xorshift; [exact Hz | lia].
Qed.

Lemma splitmix64_mix_unmix (y : Z) :
  in_range y -> splitmix64_mix (splitmix64_unmix y) = y.
Proof.
  intros Hy. unfold splitmix64_unmix, splitmix64_mix.
  assert (H1 : in_range (unxorshift y 31))
    by (apply unxorshift_in_range; [exact Hy | lia]).
  set (a := mul (unxorshift y 31) 0x319642b2d24d8ec3).
  assert (Ha : in_range a) by apply mul_in_range.
  assert (H2 : in_range (unxorshift a 27))
    by (apply unxorshift_in_range; [exact Ha | lia]).
  set (b := mul (unxorshift a 27) 0x96de1b173f119089).
  assert (Hb : in_range b) by apply mul_in_range.
  rewrite (xorshift_unxorshift b 30) by (assumption || lia).
  unfold b. rewrite mul_inverse by (reflexivity || exact H2).
  rewrite (xorshift_unxorshift a 27) by (assumption || lia).
  unfold a. rewrite mul_inverse by (reflexivity || exact H1).
  apply xorshift_unxorshift; [exact Hy | lia].
Qed.

(** X2.  The three rounds of SplitMix64's [operator()] are a bijection on
    64-bit values: the value returned by a call is a 64-bit value, it
    determines the state the call leaves behind ([splitmix64_unmix]
    recovers it), and every 64-bit value is returned from exactly one
    state. *)
Theorem splitmix64_output_bijective (s y : Z) :
  in_range s -> in_range y ->
  in_range (fst (SplitMix64.next (SplitMix64.mk s))) /\
  SplitMix64.mk (splitmix64_unmix (fst (SplitMix64.next (SplitMix64.mk s)))) =
    snd (SplitMix64.next (SplitMix64.mk s)) /\
  (forall s', in_range s' ->
     fst (SplitMix64.next (SplitMix64.mk s)) =
     fst (SplitMix64.next (SplitMix64.mk s')) -> s = s') /\
  in_range (splitmix64_unmix y) /\
  fst (SplitMix64.next
         (SplitMix64.mk (wrap (splitmix64_unmix y - splitmix64_gamma)))) = y.
Proof.
  intros Hs Hy. rewrite splitmix64_next_mix. cbn [fst snd SplitMix64.m_state].
  split; [apply splitmix64_mix_in_range | split; [| split; [| split]]].
  - rewrite splitmix64_unmix_mix by apply add_in_range. reflexivity.
  - intros s' Hs' E. rewrite splitmix64_next_mix in E.
    cbn [fst SplitMix64.m_state] in E.
    apply (f_equal splitmix64_unmix) in E.
    rewrite !splitmix64_unmix_mix in E by apply add_in_range.
    unfold add in E. apply wrap_eq_iff in E. destruct E as [q Hq].
    unfold in_range, modulus in *. lia.
  - apply splitmix64_unmix_in_range. exact Hy.
  - rewrite splitmix64_next_mix. cbn [fst SplitMix64.m_state].
    unfold add. rewrite wrap_wrap_add.
    replace (splitmix64_unmix y - splitmix64_gamma + splitmix64_gamma)
      with (splitmix64_unmix y) by lia.
    rewrite wrap_small by (apply splitmix64_unmix_in_range; exact Hy).
    apply splitmix64_mix_unmix. exact Hy.
Qed.

Lemma splitmix64_output_bijective_witness :
  in_range 0 /\ in_range 0xe220a8397b1dcdaf /\
  SplitMix64.mk (splitmix64_unmix 0xe220a8397b1dcdaf) =
    SplitMix64.mk 0x9e3779b97f4a7c15.
Proof.
  assert (H0 : in_range 0) by (unfold in_range, modulus; lia).
  assert (H1 : in_range 0xe220a8397b1dcdaf) by (unfold in_range, modulus; lia).
  split; [exact H0 | split; [exact H1 |]].
  exact (proj1 (proj2 (splitmix64_output_bijective 0 0xe220a8397b1dcdaf H0 H1))).
Defined.

(** ** SplitMix64: the state is a counter *)

Section PositionFacts.

Context {G : Type} `{Generator G}.

Lemma output_at_S (n : nat) (g : G) :
  output_at (S n) g = output_at n (snd (gen_next g)).
Proof. unfold output_at. rewrite generate_S. reflexivity. Qed.

Lemma generate_snd_S (n : nat) (g : G) :
  snd (generate (S n) g) = snd (generate n (snd (gen_next g))).
Proof. rewrite generate_S. reflexivity. Qed.

(** The list returned by [generate] holds the outputs by position. *)
Lemma generate_outputs (n : nat) (g : G) :
  fst (generate n g) = map (fun i => output_at i g) (seq 0 n).
Proof.
  revert g. induction n as [| n IH]; intros g; [reflexivity |].
  rewrite generate_S. cbn [fst]. rewrite IH.
  cbn [seq map]. rewrite <- seq_shift, map_map. f_equal.
  apply map_ext. intros i. symmetry. apply output_at_S.
Qed.

Lemma generate_snd_add (m n : nat) (g : G) :
  snd (generate (m + n) g) = snd (generate n (snd (generate m g))).
Proof. rewrite generate_add. reflexivity. Qed.

End PositionFacts.

Lemma gamma_inverse :
  splitmix64_gamma * 0xf1de83e19937733d = 1 + 10771413168148108919 * modulus.
Proof. reflexivity. Qed.

(** Multiples of the increment agree modulo [2^64] only when the factors
    do: the increment is odd. *)
Lemma gamma_cancel (s a b : Z) :
  wrap (s + a * splitmix64_gamma) = wrap (s + b * splitmix64_gamma) <->
  wrap a = wrap b.
Proof.
  rewrite !wrap_eq_iff. split; intros [q Hq].
  - exists (q * 0xf1de83e19937733d - (a - b) * 10771413168148108919).
    assert (E : (a - b) * (splitmix64_gamma * 0xf1de83e19937733d) =
                q * modulus * 0xf1de83e19937733d).
    { rewrite Z.mul_assoc. f_equal. lia. }
    rewrite gamma_inverse in E. unfold modulus in *. lia.
  - exists (q * splitmix64_gamma). rewrite Hq. ring.
Qed.

Lemma splitmix64_state_after (n : nat) (s : Z) :
  in_range s ->
  snd (generate n (SplitMix64.mk s)) =
    SplitMix64.mk (wrap (s + Z.of_nat n * splitmix64_gamma)).
Proof.
  revert s. induction n as [| n IH]; intros s Hs.
  - simpl. rewrite Z.add_0_r, wrap_small by exact Hs. reflexivity.
  - rewrite generate_snd_S.
    change (snd (gen_next (SplitMix64.mk s)))
      with (SplitMix64.mk (add s splitmix64_gamma)).
    rewrite IH by apply add_in_range. unfold add. rewrite wrap_wrap_add.
    do 2 f_equal. lia.
Qed.

Lemma splitmix64_output_at (n : nat) (s : Z) :
  output_at n (SplitMix64.mk s) =
    splitmix64_mix (wrap (s + (Z.of_nat n + 1) * splitmix64_gamma)).
Proof.
  revert s. induction n as [| n IH]; intros s.
  - unfold output_at. simpl generate. cbn [snd].
    change (gen_next (SplitMix64.mk s)) with (SplitMix64.next (SplitMix64.mk s)).
    rewrite splitmix64_next_mix. cbn [fst SplitMix64.m_state].
    reflexivity.
  - rewrite output_at_S.
    change (snd (gen_next (SplitMix64.mk s)))
      with (SplitMix64.mk (add s splitmix64_gamma)).
    rewrite IH. unfold add. rewrite wrap_wrap_add. do 2 f_equal. lia.
Qed.

Lemma splitmix64_output_at_eq (seed : Z) (i j : nat) :
  output_at i (SplitMix64.construct seed) = output_at j (SplitMix64.construct seed)
  <-> wrap (Z.of_nat i) = wrap (Z.of_nat j).
Proof.
  unfold SplitMix64.construct. rewrite !splitmix64_output_at. split.
  - intros E. apply (f_equal splitmix64_unmix) in E.
    rewrite !splitmix64_unmix_mix in E by apply wrap_in_range.
    apply gamma_cancel in E. apply wrap_eq_iff in E. destruct E as [q Hq].
    apply wrap_eq_iff. exists q. lia.
  - intros E. f_equal. apply gamma_cancel.
    apply wrap_eq_iff in E. destruct E as [q Hq].
    apply wrap_eq_iff. exists q. lia.
Qed.

Lemma gamma_not_zero (q : Z) : splitmix64_gamma <> q * modulus.
Proof. unfold splitmix64_gamma, modulus. lia. Qed.

(** X1.  The state of a SplitMix64 is a counter: after [n] calls a
    generator constructed from a 64-bit [seed] holds
    [(seed + n * 0x9e3779b97f4a7c15) mod 2^64].  It holds the seed again
    exactly when [n] is a multiple of [2^64], so the state sequence has
    period [2^64] and no shorter one. *)
Theorem splitmix64_state_is_counter (seed : Z) (n : nat) :
  in_range seed ->
  snd (generate n (SplitMix64.construct seed)) =
    SplitMix64.mk ((seed + Z.of_nat n * 0x9e3779b97f4a7c15) mod 2 ^ 64) /\
  (snd (generate n (SplitMix64.construct seed)) = SplitMix64.construct seed
   <-> Z.of_nat n mod 2 ^ 64 = 0).
Proof.
  intros Hs. unfold SplitMix64.construct.
  rewrite splitmix64_state_after by exact Hs.
  split; [reflexivity |].
  pose proof (gamma_cancel seed (Z.of_nat n) 0) as Hc.
  assert (H0 : wrap (seed + 0 * splitmix64_gamma) = seed).
  { rewrite Z.mul_0_l, Z.add_0_r. apply wrap_small. exact Hs. }
  rewrite H0 in Hc. split.
  - intros E. injection E as E. apply Hc. exact E.
  - intros E. f_equal. apply Hc. exact E.
Qed.

Lemma splitmix64_state_is_counter_witness :
  in_range 123 /\
  snd (generate 3 (SplitMix64.construct 123)) =
    SplitMix64.mk ((123 + 3 * 0x9e3779b97f4a7c15) mod 2 ^ 64).
Proof.
  assert (Hs : in_range 123) by (unfold in_range, modulus; lia).
  split; [exact Hs | exact (proj1 (splitmix64_state_is_counter 123 3 Hs))].
Defined.

(** X3.  Two calls of one SplitMix64 return the same value exactly when
    their positions differ by a multiple of [2^64]; two successive calls
    never return the same value, and the first [n] outputs are the values
    at positions [0 .. n - 1]. *)
Theorem splitmix64_no_repeat (seed : Z) (i j n : nat) :
  (output_at i (SplitMix64.construct seed) = output_at j (SplitMix64.construct seed)
   <-> Z.of_nat i mod 2 ^ 64 = Z.of_nat j mod 2 ^ 64) /\
  output_at i (SplitMix64.construct seed) <>
    output_at (S i) (SplitMix64.construct seed) /\
  fst (generate n (SplitMix64.construct seed)) =
    map (fun k => output_at k (SplitMix64.construct seed)) (seq 0 n).
Proof.
  split; [apply splitmix64_output_at_eq | split; [| apply generate_outputs]].
  intros E. apply splitmix64_output_at_eq in E.
  apply wrap_eq_iff in E. destruct E as [q Hq].
  unfold modulus in Hq. lia.
Qed.

(** X4.  In every window of [2^64] successive calls a SplitMix64 returns
    each 64-bit value exactly once: for every seed and every 64-bit [y]
    there is exactly one position below [2^64] at which [y] is
    returned. *)
Theorem splitmix64_every_value_once (seed y : Z) :
  in_range y ->
  exists n,
    0 <= n < 2 ^ 64 /\
    output_at (Z.to_nat n) (SplitMix64.construct seed) = y /\
    (forall m, 0 <= m < 2 ^ 64 ->
       output_at (Z.to_nat m) (SplitMix64.construct seed) = y -> m = n).
Proof.
  intros Hy.
  set (u := splitmix64_unmix y).
  set (n := wrap ((u - seed) * 0xf1de83e19937733d - 1)).
  assert (Hn : in_range n) by apply wrap_in_range.
  assert (Hat : output_at (Z.to_nat n) (SplitMix64.construct seed) = y).
  { unfold SplitMix64.construct. rewrite splitmix64_output_at.
    rewrite Z2Nat.id by apply Hn.
    rewrite <- (splitmix64_mix_unmix y Hy). fold u. f_equal.
    transitivity (wrap u);
      [| apply wrap_small, splitmix64_unmix_in_range; exact Hy].
    assert (Hq : exists q, n = (u - seed) * 0xf1de83e19937733d - 1 + q * modulus).
    { apply wrap_eq_iff. unfold n, wrap. apply Z.mod_mod. discriminate. }
    destruct Hq as [q Hq]. apply wrap_eq_iff.
    exists ((u - seed) * 10771413168148108919 + q * splitmix64_gamma).
    rewrite Hq.
    replace (((u - seed) * 0xf1de83e19937733d - 1 + q * modulus + 1)
             * splitmix64_gamma)
      with ((u - seed) * (splitmix64_gamma * 0xf1de83e19937733d)
            + q * splitmix64_gamma * modulus) by ring.
    rewrite gamma_inverse. ring. }
  exists n. split; [exact Hn | split; [exact Hat |]].
  intros m Hm E. rewrite <- Hat in E.
  apply splitmix64_output_at_eq in E.
  rewrite !Z2Nat.id in E by (apply Hn || lia).
  rewrite !wrap_small in E by (exact Hn || exact Hm). exact E.
Qed.

Lemma splitmix64_every_value_once_witness :
  in_range 0xe220a8397b1dcdaf /\
  exists n,
    0 <= n < 2 ^ 64 /\
    output_at (Z.to_nat n) (SplitMix64.construct 0) = 0xe220a8397b1dcdaf.
Proof.
  assert (Hy : in_range 0xe220a8397b1dcdaf) by (unfold in_range, modulus; lia).
  split; [exact Hy |].
  destruct (splitmix64_every_value_once 0 0xe220a8397b1dcdaf Hy)
    as (n & Hn & Hat & _).
  exists n. split; [exact Hn | exact Hat].
Defined.

(** ** The unit test [sequence_neighbors] *)

Lemma neighbors_loop_splitmix64 (n : nat) (st : Z) :
  in_range st ->
  neighbors_loop n (SplitMix64.mk st) (splitmix64_mix st) = true.
Proof.
  revert st. induction n as [| n IH]; intros st Hst; [reflexivity |].
  cbn [neighbors_loop].
  change (gen_next (SplitMix64.mk st)) with (SplitMix64.next (SplitMix64.mk st)).
  rewrite splitmix64_next_mix. cbn [SplitMix64.m_state].
  rewrite IH by apply add_in_range.
  destruct (Z.eqb_spec (splitmix64_mix (add st splitmix64_gamma))
              (splitmix64_mix st)) as [E | N]; [| reflexivity].
  exfalso. apply (f_equal splitmix64_unmix) in E.
  rewrite !splitmix64_unmix_mix in E by (apply add_in_range || exact Hst).
  rewrite <- (wrap_small st Hst) in E at 2. unfold add in E.
  apply wrap_eq_iff in E. destruct E as [q Hq].
  apply (gamma_not_zero q). lia.
Qed.

(** X5.  The checks of the unit test [sequence_neighbors] cannot fail for
    SplitMix64: for every seed and every number of rounds, each value
    differs from the one returned just before it.  The test as written
    (seed 123, [1 << 15] rounds) therefore passes for SplitMix64. *)
Theorem sequence_neighbors_splitmix64 (seed : Z) (rounds : nat) :
  sequence_neighbors_from (G := SplitMix64.t) seed rounds = true /\
  sequence_neighbors SplitMix64.t = true.
Proof.
  assert (Hany : forall s r, sequence_neighbors_from (G := SplitMix64.t) s r = true).
  { intros s r. unfold sequence_neighbors_from.
    change (gen_next (gen_construct s))
      with (SplitMix64.next (SplitMix64.mk s)).
    rewrite splitmix64_next_mix. cbn [SplitMix64.m_state].
    apply neighbors_loop_splitmix64, add_in_range. }
  split; [apply Hany | apply Hany].
Qed.

(** ** Seeded xoshiro256** states *)

Lemma construct_words (seed : Z) :
  construct seed =
    mk (output_at 0 (SplitMix64.construct seed))
       (output_at 1 (SplitMix64.construct seed))
       (output_at 2 (SplitMix64.construct seed))
       (output_at 3 (SplitMix64.construct seed)).
Proof.
  assert (E : [m_state0 (construct seed); m_state1 (construct seed);
               m_state2 (construct seed); m_state3 (construct seed)] =
              fst (generate 4 (SplitMix64.construct seed))) by reflexivity.
  rewrite generate_outputs in E. cbn [seq map] in E.
  destruct (construct seed) as [a b c d].
  cbn [m_state0 m_state1 m_state2 m_state3] in E.
  injection E as -> -> -> ->. reflexivity.
Qed.

Lemma splitmix64_output_at_neq (seed : Z) (i j : nat) :
  Z.of_nat i < Z.of_nat j < modulus ->
  output_at i (SplitMix64.construct seed) <> output_at j (SplitMix64.construct seed).
Proof.
  intros Hij E. apply splitmix64_output_at_eq in E.
  rewrite !wrap_small in E by (unfold in_range; lia). lia.
Qed.

(** X6.  No seed gives the all-zero state: the four words the constructor
    of Xoshiro256StarStar stores are pairwise different, so the state is
    a state of 64-bit words that is not all-zero, and it is still not
    all-zero after any number of calls. *)
Theorem seeded_state_never_zero (seed : Z) (n : nat) :
  let g := construct seed in
  (m_state0 g <> m_state1 g /\ m_state0 g <> m_state2 g /\
   m_state0 g <> m_state3 g /\ m_state1 g <> m_state2 g /\
   m_state1 g <> m_state3 g /\ m_state2 g <> m_state3 g) /\
  valid g /\ g <> zero /\
  valid (snd (generate n g)) /\ snd (generate n g) <> zero.
Proof.
  intros g.
  assert (Hd : forall i j : nat, Z.of_nat i < Z.of_nat j < 4 ->
            output_at i (SplitMix64.construct seed) <>
            output_at j (SplitMix64.construct seed)).
  { intros i j Hij. apply splitmix64_output_at_neq. unfold modulus. lia. }
  assert (H01 : m_state0 g <> m_state1 g).
  { unfold g. rewrite construct_words. cbn [m_state0 m_state1].
    apply (Hd 0%nat 1%nat). lia. }
  assert (Hnz : g <> zero).
  { intros E. apply H01. rewrite E. reflexivity. }
  split; [| split; [apply construct_valid | split; [exact Hnz |]]].
  - unfold g. rewrite construct_words.
    cbn [m_state0 m_state1 m_state2 m_state3].
    repeat split;
      [exact H01 | apply (Hd 0%nat 2%nat) | apply (Hd 0%nat 3%nat)
      | apply (Hd 1%nat 2%nat) | apply (Hd 1%nat 3%nat)
      | apply (Hd 2%nat 3%nat)]; lia.
  - apply generate_nonzero; [apply construct_valid | exact Hnz].
Qed.

(** ** Outputs stay within the advertised range *)

Section RangeFacts.

Context {G : Type} `{Generator G}.

Lemma generate_Forall (P : Z -> Prop) :
  (forall g, P (fst (gen_next g))) ->
  forall n g, Forall P (fst (generate n g)).
Proof.
  intros HP. induction n as [| n IH]; intros g.
  - constructor.
  - rewrite generate_S. cbn [fst]. constructor; [apply HP | apply IH].
Qed.

End RangeFacts.

Lemma range_min_max (x : Z) : in_range x <-> 0 <= x <= UINT64_MAX.
Proof. unfold in_range, modulus, UINT64_MAX. lia. Qed.

(** X7.  Whatever the state, every value returned by either generator
    lies between its [min()] and its [max()]: the outputs of any number of
    calls are all in the advertised range. *)
Theorem outputs_within_min_max (n : nat)
    (g : SplitMix64.t) (h : Xoshiro256StarStar.t) :
  Forall (fun x => SplitMix64.min <= x <= SplitMix64.max) (fst (generate n g)) /\
  Forall (fun x => Xoshiro256StarStar.min <= x <= Xoshiro256StarStar.max)
    (fst (generate n h)).
Proof.
  split; apply generate_Forall; intros s; apply range_min_max.
  - apply splitmix64_next_valid.
  - destruct s as [s0 s1 s2 s3]. apply mul_in_range.
Qed.

(** ** xoshiro256**: the output as a function of word 1 *)

Lemma next_scramble (g : t) : fst (next g) = xoshiro_scramble (m_state1 g).
Proof. destruct g. reflexivity. Qed.

Lemma unscramble_scramble (s1 : Z) :
  in_range s1 -> xoshiro_unscramble (xoshiro_scramble s1) = s1.
Proof.
  intros Hs. unfold xoshiro_unscramble, xoshiro_scramble.
  rewrite mul_inverse
    by (reflexivity || (apply rotate_left_in_range; [apply mul_in_range | lia])).
  change 57 with (64 - 7).
  rewrite (rotate_left_inverse (mul s1 5) 7) by (apply mul_in_range || lia).
  apply mul_inverse; [reflexivity | exact Hs].
Qed.

Lemma scramble_unscramble (z : Z) :
  in_range z -> xoshiro_scramble (xoshiro_unscramble z) = z.
Proof.
  intros Hz. unfold xoshiro_unscramble, xoshiro_scramble.
  assert (Hr : in_range (rotate_left (mul z 0x8e38e38e38e38e39) 57))
    by (apply rotate_left_in_range; [apply mul_in_range | lia]).
  rewrite mul_inverse by (reflexivity || exact Hr).
  change 7 with (64 - 57).
  rewrite (rotate_left_inverse (mul z 0x8e38e38e38e38e39) 57)
    by (apply mul_in_range || lia).
  apply mul_inverse; [reflexivity | exact Hz].
Qed.

(** X8.  The value returned by Xoshiro256StarStar's [operator()] is a
    one-to-one function of word 1 of the state alone: word 1 can be
    recomputed from the output, two states of 64-bit words return the
    same value exactly when their words 1 agree, the output is 0 exactly
    when word 1 is 0, and every 64-bit value is the output of some
    word 1. *)
Theorem xoshiro_output_determines_word1 (g h : t) (z : Z) :
  valid g -> valid h -> in_range z ->
  xoshiro_unscramble (fst (next g)) = m_state1 g /\
  (fst (next g) = fst (next h) <-> m_state1 g = m_state1 h) /\
  (fst (next g) = 0 <-> m_state1 g = 0) /\
  in_range (xoshiro_unscramble z) /\
  fst (next (mk (m_state0 g) (xoshiro_unscramble z) (m_state2 g) (m_state3 g))) = z.
Proof.
  intros (_ & Hg & _) (_ & Hh & _) Hz. rewrite !next_scramble.
  assert (Hinj : forall a b, in_range a -> in_range b ->
            xoshiro_scramble a = xoshiro_scramble b -> a = b).
  { intros a b Ha Hb E. apply (f_equal xoshiro_unscramble) in E.
    rewrite !unscramble_scramble in E by assumption. exact E. }
  split; [apply unscramble_scramble; exact Hg | split; [| split; [| split]]].
  - split; [apply Hinj; assumption | intros E; rewrite E; reflexivity].
  - change 0 with (xoshiro_scramble 0) at 1. split.
    + apply Hinj; [exact Hg | unfold in_range, modulus; lia].
    + intros E. rewrite E. reflexivity.
  - apply mul_in_range.
  - cbn [m_state1]. apply scramble_unscramble. exact Hz.
Qed.

Lemma xoshiro_output_determines_word1_witness :
  valid (mk 1 2 3 4) /\ valid (mk 5 2 7 8) /\ in_range 11520 /\
  xoshiro_unscramble (fst (next (mk 1 2 3 4))) = 2 /\
  fst (next (mk 1 2 3 4)) = fst (next (mk 5 2 7 8)).
Proof.
  assert (Hg : valid (mk 1 2 3 4))
    by (unfold valid, in_range, modulus; simpl; lia).
  assert (Hh : valid (mk 5 2 7 8))
    by (unfold valid, in_range, modulus; simpl; lia).
  assert (Hz : in_range 11520) by (unfold in_range, modulus; lia).
  destruct (xoshiro_output_determines_word1 _ _ _ Hg Hh Hz)
    as (Hrec & Hsame & _).
  split; [exact Hg | split; [exact Hh | split; [exact Hz | split]]].
  - exact Hrec.
  - apply Hsame. reflexivity.
Defined.

(** ** xoshiro256**: the state transition is linear *)

Lemma shl_xor (a b k : Z) :
  0 <= k -> shl (xor a b) k = xor (shl a k) (shl b k).
Proof.
  intros Hk. apply Z.bits_inj'. intros i Hi. unfold xor.
  rewrite Z.lxor_spec, !testbit_shl, Z.lxor_spec by exact Hk.
  destruct (i <? 64); [reflexivity |]. reflexivity.
Qed.

Lemma rotate_left_xor (a b k : Z) :
  in_range a -> in_range b -> 0 < k < 64 ->
  rotate_left (xor a b) k = xor (rotate_left a k) (rotate_left b k).
Proof.
  intros Ha Hb Hk. apply Z.bits_inj'. intros i Hi.
  unfold xor at 2. rewrite Z.lxor_spec.
  rewrite !rotate_left_bits by (try apply xor_in_range; assumption).
  unfold xor. rewrite !Z.lxor_spec.
  destruct (i <? 64); [| reflexivity].
  destruct (i <? k); reflexivity.
Qed.

(** X9.  The state transition of Xoshiro256StarStar's [operator()]
    commutes with the word-wise exclusive or of states of 64-bit words:
    the successor of [g ^ h] is the exclusive or of the successors of [g]
    and [h], after one call and after any number of calls. *)
Theorem step_linear (g h : t) (n : nat) :
  valid g -> valid h ->
  valid (xor_state g h) /\
  step (xor_state g h) = xor_state (step g) (step h) /\
  snd (generate n (xor_state g h)) =
    xor_state (snd (generate n g)) (snd (generate n h)).
Proof.
  assert (Hv : forall a b, valid a -> valid b -> valid (xor_state a b)).
  { intros [a0 a1 a2 a3] [b0 b1 b2 b3] (A0 & A1 & A2 & A3) (B0 & B1 & B2 & B3).
    simpl in *. unfold valid, xor_state; simpl.
    repeat (split; [apply xor_in_range; assumption |]).
    apply xor_in_range; assumption. }
  assert (Hstep : forall a b, valid a -> valid b ->
            step (xor_state a b) = xor_state (step a) (step b)).
  { intros [a0 a1 a2 a3] [b0 b1 b2 b3] (A0 & A1 & A2 & A3) (B0 & B1 & B2 & B3).
    simpl in *. unfold xor_state. cbn [m_state0 m_state1 m_state2 m_state3].
    rewrite !step_eq. cbn [m_state0 m_state1 m_state2 m_state3].
    f_equal.
    - xor_bits.
    - xor_bits.
    - rewrite shl_xor by lia.
      generalize (shl a1 17) (shl b1 17). intros u v. xor_bits.
    - rewrite <- rotate_left_xor
        by (try apply xor_in_range; assumption || lia).
      f_equal. xor_bits. }
  intros Hg Hh. split; [apply Hv; assumption | split; [apply Hstep; assumption |]].
  revert g h Hg Hh. induction n as [| n IH]; intros g h Hg Hh; [reflexivity |].
  rewrite !generate_snd_S.
  change (snd (gen_next (xor_state g h))) with (step (xor_state g h)).
  change (snd (gen_next g)) with (step g).
  change (snd (gen_next h)) with (step h).
  rewrite Hstep by assumption. apply IH; apply step_valid; assumption.
Qed.

Lemma step_linear_witness :
  valid (mk 1 2 3 4) /\ valid (mk 5 6 7 8) /\
  step (mk 4 4 4 12) = xor_state (step (mk 1 2 3 4)) (step (mk 5 6 7 8)).
Proof.
  assert (Hg : valid (mk 1 2 3 4))
    by (unfold valid, in_range, modulus; simpl; lia).
  assert (Hh : valid (mk 5 6 7 8))
    by (unfold valid, in_range, modulus; simpl; lia).
  split; [exact Hg | split; [exact Hh |]].
  exact (proj1 (proj2 (step_linear _ _ 0 Hg Hh))).
Defined.

(** ** [rotate_left] is a rotation *)

(** X10.  For a 64-bit [x] and [0 < k < 64], [rotate_left x k] is a 64-bit
    value whose bit [(i + k) mod 64] is bit [i] of [x], for every bit
    position [i] below 64: no bit is lost and none is made up. *)
Theorem rotate_left_moves_bits (x k i : Z) :
  in_range x -> 0 < k < 64 -> 0 <= i < 64 ->
  in_range (rotate_left x k) /\
  Z.testbit (rotate_left x k) ((i + k) mod 64) = Z.testbit x i.
Proof.
  intros Hx Hk Hi. split; [apply rotate_left_in_range; assumption |].
  pose proof (Z.mod_pos_bound (i + k) 64 ltac:(lia)) as Hj.
  rewrite rotate_left_bits by (assumption || lia).
  destruct (Z.ltb_spec ((i + k) mod 64) 64) as [_ | Hge]; [| lia].
  destruct (Z.lt_ge_cases (i + k) 64) as [Hlow | Hhigh].
  - rewrite Z.mod_small by lia.
    destruct (Z.ltb_spec (i + k) k); [lia |]. f_equal. lia.
  - replace ((i + k) mod 64) with (i + k - 64).
    + destruct (Z.ltb_spec (i + k - 64) k); [| lia]. f_equal. lia.
    + apply Z.mod_unique with (q := 1); lia.
Qed.

Lemma rotate_left_moves_bits_witness :
  in_range 0x8000000000000001 /\ 0 < 7 < 64 /\ 0 <= 63 < 64 /\
  Z.testbit (rotate_left 0x8000000000000001 7) 6 = true.
Proof.
  assert (Hx : in_range 0x8000000000000001) by (unfold in_range, modulus; lia).
  assert (Hk : 0 < 7 < 64) by lia.
  assert (Hi : 0 <= 63 < 64) by lia.
  split; [exact Hx | split; [exact Hk | split; [exact Hi |]]].
  exact (proj2 (rotate_left_moves_bits _ 7 63 Hx Hk Hi)).
Defined.

(** ** The byte-dump loop: more requests, longer output *)

Section WriterMore.

Context {G : Type} `{Generator G}.

Lemma write_random_bytes_too_big (seed b : Z) (fuel : nat) :
  modulus - 8192 < b -> write_random_bytes_to_stdout fuel seed b = None.
Proof.
  intros Hb. unfold write_random_bytes_to_stdout.
  rewrite (write_loop_wraps b fuel Hb); [reflexivity | | reflexivity].
  unfold in_range, modulus. lia.
Qed.

Lemma write_random_bytes_prefix_aux (seed b b' : Z) (fuel fuel' : nat)
    (out out' : list Z) :
  0 <= b -> b <= b' ->
  write_random_bytes_to_stdout fuel seed b = Some out ->
  write_random_bytes_to_stdout fuel' seed b' = Some out' ->
  exists rest,
    out' = out ++ rest /\
    bytes_of rest = 8192 * ((b' + 8191) / 8192 - (b + 8191) / 8192).
Proof.
  intros Hb Hle Hrun Hrun'.
  destruct (Z.lt_ge_cases (modulus - 8192) b') as [Hbig | Hfit].
  { rewrite write_random_bytes_too_big in Hrun' by exact Hbig. discriminate. }
  rewrite write_random_bytes_blocks in Hrun, Hrun' by lia.
  set (q := (b + 8191) / 8192) in *. set (q' := (b' + 8191) / 8192) in *.
  assert (Hq : 0 <= q <= q').
  { split; [apply Z.div_pos; lia | apply Z.div_le_mono; lia]. }
  destruct (Z.to_nat q <=? fuel)%nat; [| discriminate].
  destruct (Z.to_nat q' <=? fuel')%nat; [| discriminate].
  remember (Z.to_nat block_size) as bs eqn:Ebs.
  injection Hrun as <-. injection Hrun' as <-.
  replace (Z.to_nat q') with (Z.to_nat q + Z.to_nat (q' - q))%nat by lia.
  rewrite Nat.mul_add_distr_l, generate_add. cbn [fst].
  eexists. split; [reflexivity |].
  unfold bytes_of. rewrite generate_length, Nat2Z.inj_mul, Ebs.
  rewrite !Z2Nat.id by (unfold block_size; lia).
  unfold sizeof_uint64_t, block_size. lia.
Qed.

End WriterMore.

(** X11.  For one generator and one seed the output of
    [write_random_bytes_to_stdout] for a request [b] is a prefix of its
    output for any larger request [b']: asking for more bytes only appends
    whole blocks, as many as the two block counts differ by. *)
Theorem write_random_bytes_prefix (G : Type) (GenG : Generator G)
    (seed b b' : Z) (fuel fuel' : nat) (out out' : list Z) :
  0 <= b -> b <= b' ->
  write_random_bytes_to_stdout fuel seed b = Some out ->
  write_random_bytes_to_stdout fuel' seed b' = Some out' ->
  exists rest,
    out' = out ++ rest /\
    bytes_of rest = 8192 * ((b' + 8191) / 8192 - (b + 8191) / 8192).
Proof. apply write_random_bytes_prefix_aux. Qed.

Lemma write_random_bytes_prefix_witness :
  0 <= 1 /\ 1 <= 8193 /\
  exists rest,
    fst (generate 2048 (SplitMix64.construct 0)) =
      fst (generate 1024 (SplitMix64.construct 0)) ++ rest /\
    bytes_of rest = 8192.
Proof.
  assert (H0 : 0 <= 1) by lia. assert (H1 : 1 <= 8193) by lia.
  split; [exact H0 | split; [exact H1 |]].
  assert (Ha : write_random_bytes_to_stdout (G := SplitMix64.t) 1 0 1 =
               Some (fst (generate 1024 (SplitMix64.construct 0)))).
  { rewrite write_random_bytes_blocks by (unfold modulus; lia). reflexivity. }
  assert (Hb : write_random_bytes_to_stdout (G := SplitMix64.t) 2 0 8193 =
               Some (fst (generate 2048 (SplitMix64.construct 0)))).
  { rewrite write_random_bytes_blocks by (unfold modulus; lia). reflexivity. }
  exact (write_random_bytes_prefix _ _ 0 1 8193 1 2 _ _ H0 H1 Ha Hb).
Defined.

(** X12.  For every generator, every seed and every request above
    [2^64 - 8192], [write_random_bytes_to_stdout] does not return, however
    many iterations it is given: the 64-bit running total wraps to 0
    before it can reach the request. *)
Theorem write_random_bytes_wraps_forever (G : Type) (GenG : Generator G)
    (seed b : Z) (fuel : nat) :
  2 ^ 64 - 8192 < b -> write_random_bytes_to_stdout fuel seed b = None.
Proof. apply write_random_bytes_too_big. Qed.

Lemma write_random_bytes_wraps_forever_witness :
  2 ^ 64 - 8192 < 2 ^ 64 - 8191 /\
  write_random_bytes_to_stdout (G := Xoshiro256StarStar.t) 3 123 (2 ^ 64 - 8191)
    = None.
Proof.
  assert (Hb : 2 ^ 64 - 8192 < 2 ^ 64 - 8191) by lia.
  split; [exact Hb |].
  exact (write_random_bytes_wraps_forever Xoshiro256StarStar.t _ 123 _ 3 Hb).
Defined.

(** ** [main]: termination, exit status, output *)

Section MainMore.

Variable strtoull : string -> Z.

(** The byte count [main] computes is a whole number of blocks. *)
Lemma main_bytes_blocks (x : Z) :
  exists k, 0 <= k /\ mul (1024 * 1024) (wrap x) = 8192 * k /\
            8192 * k <= modulus - 8192.
Proof.
  pose proof (main_bytes_bound x) as Hb.
  exists (128 * (wrap x mod 2 ^ 44)).
  pose proof (Z.mod_pos_bound (wrap x) (2 ^ 44) ltac:(lia)) as Hm.
  assert (E : mul (1024 * 1024) (wrap x) = 8192 * (128 * (wrap x mod 2 ^ 44))).
  { unfold mul. unfold wrap at 1. unfold modulus.
    change (2 ^ 64) with (1024 * 1024 * 2 ^ 44).
    rewrite Z.mul_mod_distr_l by lia. lia. }
  split; [lia | split; [exact E | rewrite <- E; apply Hb]].
Qed.

Lemma main_registered (argv : list string) (entry : RngRegistryEntry)
    (G : Type) (GenG : Generator G) :
  3 <= Z.of_nat (List.length argv) <= 4 ->
  select registry (nth 1 argv EmptyString) = Some entry ->
  func entry = write_random_bytes_to_stdout (G := G) ->
  let bytes := mul (1024 * 1024) (wrap (strtoull (nth 2 argv EmptyString))) in
  let seed := if Z.of_nat (List.length argv) =? 4
              then wrap (strtoull (nth 3 argv EmptyString)) else 1234567890 in
  let out := fst (generate (Z.to_nat (bytes / 8)) (gen_construct seed)) in
  bytes_of out = bytes /\
  forall fuel,
    main strtoull fuel argv =
      if (Z.to_nat (bytes / 8192) <=? fuel)%nat
      then Some (mkOutcome EXIT_SUCCESS
                   [ ("rng: " ++ nth 1 argv EmptyString ++ nl)%string;
                     ("seed: " ++ show_u64 seed ++ nl)%string;
                     ("bytes: " ++ show_u64 bytes ++ nl)%string ] out)
      else None.
Proof.
  intros Hargc Hsel Hfunc bytes seed out.
  destruct (main_bytes_blocks (strtoull (nth 2 argv EmptyString)))
    as (k & Hk & Ebytes & Hfit).
  fold bytes in Ebytes.
  assert (Hblocks : (bytes + 8191) / 8192 = k).
  { symmetry. apply Z.div_unique with (r := 8191); lia. }
  assert (Hwords : bytes / 8 = block_size * k).
  { symmetry. apply Z.div_unique with (r := 0); unfold block_size; lia. }
  assert (Hk' : bytes / 8192 = k).
  { symmetry. apply Z.div_unique with (r := 0); lia. }
  assert (Hout : out = fst (generate (Z.to_nat block_size * Z.to_nat k)
                              (gen_construct seed))).
  { unfold out. rewrite Hwords, Z2Nat.inj_mul by (unfold block_size; lia).
    reflexivity. }
  split.
  - rewrite Hout. unfold bytes_of.
    rewrite generate_length, Nat2Z.inj_mul, !Z2Nat.id by (unfold block_size; lia).
    unfold sizeof_uint64_t, block_size. lia.
  - intros fuel. unfold main. fold bytes. fold seed.
    destruct (Z.ltb_spec (Z.of_nat (List.length argv)) 3); [lia |].
    destruct (Z.ltb_spec 4 (Z.of_nat (List.length argv))); [lia |].
    cbn [orb]. rewrite Hsel, Hfunc.
    rewrite write_random_bytes_blocks by lia.
    rewrite Hblocks, Hk', <- Hout.
    destruct (Z.to_nat k <=? fuel)%nat; reflexivity.
Qed.

End MainMore.

(** X13.  [main] returns for every argument vector, whatever [strtoull]
    makes of the numbers: with enough iterations allowed for the write
    loop it ends with an exit status, and with more it ends the same
    way. *)
Theorem main_always_returns (strtoull : string -> Z) (argv : list string) :
  exists fuel o,
    forall fuel', (fuel <= fuel')%nat -> main strtoull fuel' argv = Some o.
Proof.
  destruct (Z.lt_ge_cases (Z.of_nat (List.length argv)) 3) as [Hfew | H3].
  { exists 0%nat. eexists. intros fuel' _. apply main_usage. lia. }
  destruct (Z.lt_ge_cases 4 (Z.of_nat (List.length argv))) as [Hmany | H4].
  { exists 0%nat. eexists. intros fuel' _. apply main_usage. lia. }
  destruct (select registry (nth 1 argv EmptyString)) as [entry |] eqn:Esel.
  - set (bytes := mul (1024 * 1024) (wrap (strtoull (nth 2 argv EmptyString)))).
    exists (Z.to_nat (bytes / 8192)).
    destruct (select_registry _ _ Esel) as [E | E];
      [ destruct (main_registered strtoull argv entry SplitMix64.t _
                    ltac:(lia) Esel ltac:(rewrite E; reflexivity)) as [_ Hrun]
      | destruct (main_registered strtoull argv entry Xoshiro256StarStar.t _
                    ltac:(lia) Esel ltac:(rewrite E; reflexivity)) as [_ Hrun] ];
      eexists; intros fuel' Hfuel; rewrite Hrun; fold bytes;
      destruct (Nat.leb_spec (Z.to_nat (bytes / 8192)) fuel');
      (reflexivity || lia).
  - exists 0%nat. eexists. intros fuel' _. apply main_unknown_rng; [lia | exact Esel].
Qed.



(** X15.  Run with two or three arguments and a registered name, [main]
    returns [EXIT_SUCCESS] once the write loop has had [bytes / 8192]
    iterations, where [bytes] is [2^20] times the first number modulo
    [2^64].  Standard error holds the three lines [rng:], [seed:],
    [bytes:], and standard output holds exactly [bytes] bytes: the first
    [bytes / 8] outputs of the generator of that name, seeded with the
    second number if there is one and with 1234567890 otherwise.  When the
    first number is below [2^44] the byte count is that many mebibytes;
    from [2^44] on it wraps. *)
Theorem main_writes_requested_bytes (strtoull : string -> Z)
    (argv : list string) (fuel : nat) :
  3 <= Z.of_nat (List.length argv) <= 4 ->
  let count := strtoull (nth 2 argv EmptyString) mod 2 ^ 64 in
  let bytes := (1024 * 1024 * count) mod 2 ^ 64 in
  let seed := if Z.of_nat (List.length argv) =? 4
              then strtoull (nth 3 argv EmptyString) mod 2 ^ 64
              else 1234567890 in
  let log := [ ("rng: " ++ nth 1 argv EmptyString ++ nl)%string;
               ("seed: " ++ show_u64 seed ++ nl)%string;
               ("bytes: " ++ show_u64 bytes ++ nl)%string ] in
  (Z.to_nat (bytes / 8192) <= fuel)%nat ->
  (nth 1 argv EmptyString = "splitmix64"%string ->
   main strtoull fuel argv =
     Some (mkOutcome EXIT_SUCCESS log
             (fst (generate (Z.to_nat (bytes / 8)) (SplitMix64.construct seed))))) /\
  (nth 1 argv EmptyString = "xoshiro256**"%string ->
   main strtoull fuel argv =
     Some (mkOutcome EXIT_SUCCESS log
             (fst (generate (Z.to_nat (bytes / 8))
                     (Xoshiro256StarStar.construct seed))))) /\
  8 * Z.of_nat (Z.to_nat (bytes / 8)) = bytes /\
  (count < 2 ^ 44 -> bytes = 1048576 * count) /\
  (count = 2 ^ 44 -> bytes = 0).
Proof.
  intros Hargc count bytes seed log Hfuel.
  assert (Hleb : (Z.to_nat (bytes / 8192) <=? fuel)%nat = true)
    by (apply Nat.leb_le; exact Hfuel).
  split; [| split; [| split; [| split]]].
  - intros Hname.
    destruct (main_registered strtoull argv
                (mkEntry "splitmix64" (write_random_bytes_to_stdout (G := SplitMix64.t)))
                SplitMix64.t _ Hargc) as [_ Hrun];
      [rewrite Hname; reflexivity | reflexivity |].
    rewrite Hrun. fold (wrap (strtoull (nth 2 argv EmptyString))).
    change (mul (1024 * 1024) (wrap (strtoull (nth 2 argv EmptyString))))
      with bytes.
    rewrite Hleb. reflexivity.
  - intros Hname.
    destruct (main_registered strtoull argv
                (mkEntry "xoshiro256**"
                   (write_random_bytes_to_stdout (G := Xoshiro256StarStar.t)))
                Xoshiro256StarStar.t _ Hargc) as [_ Hrun];
      [rewrite Hname; reflexivity | reflexivity |].
    rewrite Hrun.
    change (mul (1024 * 1024) (wrap (strtoull (nth 2 argv EmptyString))))
      with bytes.
    rewrite Hleb. reflexivity.
  - destruct (main_bytes_blocks (strtoull (nth 2 argv EmptyString)))
      as (k & Hk & Ebytes & _).
    change (mul (1024 * 1024) (wrap (strtoull (nth 2 argv EmptyString))))
      with bytes in Ebytes.
    assert (Hwords : bytes / 8 = 1024 * k).
    { symmetry. apply Z.div_unique with (r := 0); lia. }
    rewrite Hwords, Z2Nat.id by lia. lia.
  - intros Hsmall. unfold bytes. apply Z.mod_small.
    pose proof (Z.mod_pos_bound (strtoull (nth 2 argv EmptyString)) (2 ^ 64)
                  ltac:(lia)).
    fold count in H. lia.
  - intros E. unfold bytes. rewrite E. reflexivity.
Qed.

Lemma main_writes_requested_bytes_witness :
  3 <= Z.of_nat (List.length
                   ["example_prng_dieharder"; "splitmix64"; "1"; "7"]%string) <= 4 /\
  main (fun s => if String.eqb s "1" then 1 else 7) (Z.to_nat 128)
       ["example_prng_dieharder"; "splitmix64"; "1"; "7"]%string =
    Some (mkOutcome EXIT_SUCCESS
            [ ("rng: splitmix64" ++ nl)%string;
              ("seed: 7" ++ nl)%string;
              ("bytes: 1048576" ++ nl)%string ]
            (fst (generate (Z.to_nat 131072) (SplitMix64.construct 7)))).
Proof.
  assert (Hargc : 3 <= Z.of_nat (List.length
                    ["example_prng_dieharder"; "splitmix64"; "1"; "7"]%string) <= 4)
    by (simpl; lia).
  split; [exact Hargc |].
  refine (proj1 (main_writes_requested_bytes
                   (fun s => if String.eqb s "1" then 1 else 7)
                   ["example_prng_dieharder"; "splitmix64"; "1"; "7"]%string
                   (Z.to_nat 128) Hargc _) eq_refl).
  apply Nat.le_refl.
Defined.
